(** * query-with-cache: the cache stores and the cached-fetch orchestrator

    A shallow embedding of the TypeScript sources

    - [query-with-cache.ts]      the orchestrator [queryWithCache],
    - [cache.types.ts]           keys, entries and the [CacheStore] interface,
    - [cache-store-in-memory.ts] the tree-shaped store [CacheStoreInMemory],
    - [cache-store-mmkv.ts]      the flat persisted store [CacheStoreMMKV],

    followed by the properties of the specification, stated over these
    definitions.

    Conventions of the embedding.
    - [Date.now()] is an explicit argument [now : Z] (milliseconds).
    - JavaScript numbers are the integers [Z]; non-integral numbers, [NaN] as
      a stored value and the infinities are outside the model. The durations
      of an entry are therefore integers; what the persisted store does with
      a duration it wrote as [null] is stated on its records.
    - A JavaScript string is a [string]: a sequence of code units below 256.
    - A plain object is a finite map from property names to values, so two
      objects are equal exactly when they are deep-equal; property order is
      not represented.
    - An exception is an explicit [Throw] outcome; the object a method
      mutates is passed in and returned.
    - A callback of the orchestrator is given by how its invocation
      completes; [runWith] is a call with any callbacks, [run] one whose
      callbacks all return.
    - The log sink and the garbage-collection timer are not represented:
      [debugLog] and [logger.log] have no effect on the store, and the timer
      only ever calls [cleanUp]. *)

From stdpp Require Import gmap strings list fin_maps.
From Stdlib Require Import ZArith Ascii String DecimalFacts DecimalZ.

Set Warnings "-register-all".
Local Open Scope Z_scope.

(** ** JavaScript values *)

Module JS.

Inductive value :=
| VUndefined
| VNull
| VBool (b : bool)
| VNum (n : Z)
| VStr (s : string)
| VArr (l : list value)
| VObj (m : gmap string value).

Global Instance value_eq_dec : EqDecision value.
Proof.
  refine (fix go (a b : value) {struct a} : Decision (a = b) :=
    let _ : EqDecision value := @go in
    match a, b with
    | VUndefined, VUndefined => left _
    | VNull, VNull => left _
    | VBool x, VBool y => cast_if (decide (x = y))
    | VNum x, VNum y => cast_if (decide (x = y))
    | VStr x, VStr y => cast_if (decide (x = y))
    | VArr x, VArr y => cast_if (decide (x = y))
    | VObj x, VObj y => cast_if (decide (x = y))
    | _, _ => right _
    end); abstract congruence.
Defined.

(** The number of constructors of a value; the measure of the inductions
    on values, which are nested through [list] and [gmap]. *)
Fixpoint value_size (v : value) : nat :=
  match v with
  | VArr l => S (foldr (λ x acc, value_size x + acc)%nat 0%nat l)
  | VObj m => S (map_fold (λ _ x acc, value_size x + acc)%nat 0%nat m)
  | _ => 1%nat
  end.

(** [ToBoolean]: what [if (x)] and [!x] test. *)
Definition truthy (v : value) : bool :=
  match v with
  | VUndefined | VNull => false
  | VBool b => b
  | VNum n => negb (n =? 0)
  | VStr s => negb (String.eqb s "")
  | VArr _ | VObj _ => true
  end.

(** [isEqual] of fast-deep-equal: deep value equality, independent of the
    order of the properties of an object. On the values of this model it
    is equality. *)
Definition isEqual (a b : value) : bool := bool_decide (a = b).

(** What a JavaScript computation can throw. *)
Inductive error :=
| TypeError (message : string)
| SyntaxError
| Raised (reason : value).

Global Instance error_eq_dec : EqDecision error.
Proof. solve_decision. Defined.

Inductive outcome (A : Type) :=
| Ok (a : A)
| Throw (e : error).
Global Arguments Ok {A} a.
Global Arguments Throw {A} e.

(** Sequencing: a [Throw] skips what follows. *)
Global Instance outcome_ret : MRet outcome := λ A a, Ok a.
Global Instance outcome_bind : MBind outcome := λ A B k m,
  match m with
  | Ok a => k a
  | Throw e => Throw e
  end.

(** [ToNumber] on the operands of [Date.now() - entry.timestamp > ...];
    [None] is [NaN]. Strings other than the empty one, arrays and objects
    are taken to [NaN]: [set] never stores them in a time field. *)
Definition toNumber (v : value) : option Z :=
  match v with
  | VNum n => Some n
  | VNull => Some 0
  | VBool b => Some (if b then 1 else 0)
  | VStr s => if String.eqb s "" then Some 0 else None
  | VUndefined | VArr _ | VObj _ => None
  end.

(** [v.name]: reading a property of [null] or [undefined] throws; a
    property that is absent reads as [undefined]. *)
Definition getProp (v : value) (name : string) : outcome value :=
  match v with
  | VUndefined | VNull =>
      Throw (TypeError "Cannot read properties of null or undefined")
  | VObj m => Ok (default VUndefined (m !! name))
  | VBool _ | VNum _ | VStr _ | VArr _ => Ok VUndefined
  end.

(** [now - timestamp > threshold] on possibly ill-typed operands: any
    comparison with [NaN] is false. *)
Definition olderThan (now : Z) (timestamp threshold : value) : bool :=
  match toNumber timestamp, toNumber threshold with
  | Some t, Some d => bool_decide (d < now - t)
  | _, _ => false
  end.

End JS.
Export JS.

(** ** [JSON.stringify] and [JSON.parse]

    The two built-ins the persisted store relies on, on the values of the
    model. Texts are lists of characters. The parser follows the JSON
    grammar; a text whose numbers have a fraction or an exponent, or whose
    strings hold an escape above code unit 255, denotes a value outside
    the model and is refused like an ill-formed one. *)

Module Json.

Definition chars (s : string) : list ascii := list_ascii_of_string s.

Definition dquote : ascii := "034"%char.

Fixpoint uint_chars (u : Decimal.uint) : list ascii :=
  match u with
  | Decimal.Nil => []
  | Decimal.D0 u => "0"%char :: uint_chars u
  | Decimal.D1 u => "1"%char :: uint_chars u
  | Decimal.D2 u => "2"%char :: uint_chars u
  | Decimal.D3 u => "3"%char :: uint_chars u
  | Decimal.D4 u => "4"%char :: uint_chars u
  | Decimal.D5 u => "5"%char :: uint_chars u
  | Decimal.D6 u => "6"%char :: uint_chars u
  | Decimal.D7 u => "7"%char :: uint_chars u
  | Decimal.D8 u => "8"%char :: uint_chars u
  | Decimal.D9 u => "9"%char :: uint_chars u
  end.

(** [String(n)] for an integer [n]: decimal digits, with a minus sign. *)
Definition number_chars (n : Z) : list ascii :=
  match Z.to_int n with
  | Decimal.Pos u => uint_chars u
  | Decimal.Neg u => "-"%char :: uint_chars u
  end.

Definition hex_char (n : N) : ascii :=
  match n with
  | 0%N => "0" | 1%N => "1" | 2%N => "2" | 3%N => "3" | 4%N => "4"
  | 5%N => "5" | 6%N => "6" | 7%N => "7" | 8%N => "8" | 9%N => "9"
  | 10%N => "a" | 11%N => "b" | 12%N => "c" | 13%N => "d" | 14%N => "e"
  | _ => "f"
  end%char.

(** How [JSON.stringify] writes one character of a string. *)
Definition escape (c : ascii) : list ascii :=
  match c with
  | "034" => ["\"; "034"]
  | "\" => ["\"; "\"]
  | "008" => ["\"; "b"]
  | "009" => ["\"; "t"]
  | "010" => ["\"; "n"]
  | "012" => ["\"; "f"]
  | "013" => ["\"; "r"]
  | _ =>
      if (N_of_ascii c <? 32)%N
      then ["\"; "u"; "0"; "0"; hex_char (N_of_ascii c / 16); hex_char (N_of_ascii c mod 16)]
      else [c]
  end%char.

Definition string_chars (s : string) : list ascii :=
  dquote :: flat_map escape (chars s) ++ [dquote].

Fixpoint join_comma (parts : list (list ascii)) : list ascii :=
  match parts with
  | [] => []
  | [x] => x
  | x :: rest => x ++ ","%char :: join_comma rest
  end.

(** The text of a value. An [undefined] array element is written [null];
    a property whose value is [undefined] is left out. *)
Fixpoint stringify_chars (v : value) : list ascii :=
  match v with
  | VUndefined | VNull => chars "null"
  | VBool true => chars "true"
  | VBool false => chars "false"
  | VNum n => number_chars n
  | VStr s => string_chars s
  | VArr l => "["%char :: join_comma (stringify_chars <$> l) ++ ["]"%char]
  | VObj m =>
      "{"%char ::
        join_comma
          (map_fold
             (λ k x acc,
                match x with
                | VUndefined => acc
                | _ => (string_chars k ++ ":"%char :: stringify_chars x) :: acc
                end) [] m)
        ++ ["}"%char]
  end.

(** [JSON.stringify(v)] for a [v] that is not [undefined]. *)
Definition stringify (v : value) : string :=
  string_of_list_ascii (stringify_chars v).

Definition is_ws (c : ascii) : bool :=
  match c with
  | " " | "009" | "010" | "013" => true
  | _ => false
  end%char.

Fixpoint skip_ws (s : list ascii) : list ascii :=
  match s with
  | c :: r => if is_ws c then skip_ws r else s
  | [] => []
  end.

Fixpoint strip_prefix (p s : list ascii) : option (list ascii) :=
  match p, s with
  | [], _ => Some s
  | a :: p', b :: s' => if Ascii.eqb a b then strip_prefix p' s' else None
  | _ :: _, [] => None
  end.

Definition digit_of (c : ascii) : option (Decimal.uint → Decimal.uint) :=
  match c with
  | "0" => Some Decimal.D0 | "1" => Some Decimal.D1 | "2" => Some Decimal.D2
  | "3" => Some Decimal.D3 | "4" => Some Decimal.D4 | "5" => Some Decimal.D5
  | "6" => Some Decimal.D6 | "7" => Some Decimal.D7 | "8" => Some Decimal.D8
  | "9" => Some Decimal.D9
  | _ => None
  end%char.

Fixpoint scan_uint (s : list ascii) : Decimal.uint * list ascii :=
  match s with
  | c :: r =>
      match digit_of c with
      | Some d => let '(u, r') := scan_uint r in (d u, r')
      | None => (Decimal.Nil, s)
      end
  | [] => (Decimal.Nil, [])
  end.

(** A number of the grammar: an optional minus sign and digits without a
    superfluous leading zero. *)
Definition parse_number (s : list ascii) : option (Z * list ascii) :=
  let '(negative, digits) :=
    match s with
    | "-"%char :: r => (true, r)
    | _ => (false, s)
    end in
  let '(u, rest) := scan_uint digits in
  match u with
  | Decimal.Nil => None
  | _ =>
      if negb (Decimal.uint_beq (Decimal.unorm u) u) then None
      else
        match rest with
        | "."%char :: _ | "e"%char :: _ | "E"%char :: _ => None
        | _ => Some (Z.of_int (if negative then Decimal.Neg u else Decimal.Pos u), rest)
        end
  end.

(** The value of a hexadecimal digit, in either case. *)
Definition hex_val (c : ascii) : option N :=
  let n := N_of_ascii c in
  if ((48 <=? n) && (n <=? 57))%N then Some (n - 48)%N
  else if ((97 <=? n) && (n <=? 102))%N then Some (n - 87)%N
  else if ((65 <=? n) && (n <=? 70))%N then Some (n - 55)%N
  else None.

Definition unicode_escape (h1 h2 h3 h4 : ascii) : option ascii :=
  match hex_val h1, hex_val h2, hex_val h3, hex_val h4 with
  | Some a, Some b, Some c, Some d =>
      let n := (((a * 16 + b) * 16 + c) * 16 + d)%N in
      if (n <? 256)%N then Some (ascii_of_N n) else None
  | _, _, _, _ => None
  end.

(** The characters of a string up to its closing quote. *)
Fixpoint parse_string (s : list ascii) : option (list ascii * list ascii) :=
  match s with
  | [] => None
  | "034"%char :: r => Some ([], r)
  | "\"%char :: e :: r =>
      let continue (c : ascii) (r : option (list ascii * list ascii)) :=
        match r with
        | Some (str, rest) => Some (c :: str, rest)
        | None => None
        end in
      match e with
      | "034" | "\" | "/" => continue e (parse_string r)
      | "b" => continue "008" (parse_string r)
      | "t" => continue "009" (parse_string r)
      | "n" => continue "010" (parse_string r)
      | "f" => continue "012" (parse_string r)
      | "r" => continue "013" (parse_string r)
      | "u" =>
          match r with
          | h1 :: h2 :: h3 :: h4 :: r' =>
              match unicode_escape h1 h2 h3 h4 with
              | Some c => continue c (parse_string r')
              | None => None
              end
          | _ => None
          end
      | _ => None
      end%char
  | c :: r =>
      if (N_of_ascii c <? 32)%N then None
      else
        match parse_string r with
        | Some (str, rest) => Some (c :: str, rest)
        | None => None
        end
  end.

(** The object of a list of members: a later member of the same name
    replaces an earlier one. *)
Definition object_of (members : list (string * value)) : gmap string value :=
  foldl (λ m kv, <[kv.1 := kv.2]> m) ∅ members.

(** Recursive descent, on a bound [fuel] for the calls. [parse_elements]
    reads the elements of an array after its first bracket, up to the
    closing one; [parse_members] does so for an object. *)
Fixpoint parse_value (fuel : nat) (s : list ascii) : option (value * list ascii) :=
  match fuel with
  | O => None
  | S fuel =>
      match skip_ws s with
      | [] => None
      | c :: r =>
          match c with
          | "n" =>
              match strip_prefix (chars "ull") r with
              | Some rest => Some (VNull, rest)
              | None => None
              end
          | "t" =>
              match strip_prefix (chars "rue") r with
              | Some rest => Some (VBool true, rest)
              | None => None
              end
          | "f" =>
              match strip_prefix (chars "alse") r with
              | Some rest => Some (VBool false, rest)
              | None => None
              end
          | "034" =>
              match parse_string r with
              | Some (str, rest) => Some (VStr (string_of_list_ascii str), rest)
              | None => None
              end
          | "[" =>
              match skip_ws r with
              | "]" :: rest => Some (VArr [], rest)
              | _ =>
                  match parse_elements fuel r with
                  | Some (l, rest) => Some (VArr l, rest)
                  | None => None
                  end
              end
          | "{" =>
              match skip_ws r with
              | "}" :: rest => Some (VObj ∅, rest)
              | _ =>
                  match parse_members fuel r with
                  | Some (l, rest) => Some (VObj (object_of l), rest)
                  | None => None
                  end
              end
          | _ =>
              match parse_number (c :: r) with
              | Some (n, rest) => Some (VNum n, rest)
              | None => None
              end
          end%char
      end
  end
with parse_elements (fuel : nat) (s : list ascii) : option (list value * list ascii) :=
  match fuel with
  | O => None
  | S fuel =>
      match parse_value fuel s with
      | Some (v, r) =>
          match skip_ws r with
          | "," :: r' =>
              match parse_elements fuel r' with
              | Some (l, rest) => Some (v :: l, rest)
              | None => None
              end
          | "]" :: rest => Some ([v], rest)
          | _ => None
          end%char
      | None => None
      end
  end
with parse_members (fuel : nat) (s : list ascii) : option (list (string * value) * list ascii) :=
  match fuel with
  | O => None
  | S fuel =>
      match skip_ws s with
      | "034"%char :: r =>
          match parse_string r with
          | Some (k, r1) =>
              match skip_ws r1 with
              | ":"%char :: r2 =>
                  match parse_value fuel r2 with
                  | Some (v, r3) =>
                      match skip_ws r3 with
                      | "," :: r4 =>
                          match parse_members fuel r4 with
                          | Some (l, rest) => Some ((string_of_list_ascii k, v) :: l, rest)
                          | None => None
                          end
                      | "}" :: rest => Some ([(string_of_list_ascii k, v)], rest)
                      | _ => None
                      end%char
                  | None => None
                  end
              | _ => None
              end
          | None => None
          end
      | _ => None
      end
  end.

(** [JSON.parse(text)]; [None] is the [SyntaxError] it throws. A text of
    [n] characters needs fewer than [n + 1] nested calls. *)
Definition parse (text : string) : option value :=
  let s := chars text in
  match parse_value (S (List.length s)) s with
  | Some (v, rest) =>
      match skip_ws rest with
      | [] => Some v
      | _ :: _ => None
      end
  | None => None
  end.

(** The values [JSON.stringify] and [JSON.parse] carry over unchanged:
    those without [undefined] anywhere inside. *)
Fixpoint representable (v : value) : bool :=
  match v with
  | VUndefined => false
  | VNull | VBool _ | VNum _ | VStr _ => true
  | VArr l => forallb representable l
  | VObj m => map_fold (λ _ x acc, representable x && acc) true m
  end.

(** *** Notions used to state the round trip *)

(** What may follow a value inside a text [stringify] writes: the end, a
    comma or a closing bracket. *)
Definition follows (rest : list ascii) : Prop :=
  match rest with
  | [] => True
  | c :: _ => c = ","%char ∨ c = "]"%char ∨ c = "}"%char
  end.

(** The text of one member of an object. *)
Definition member_chars (kx : string * value) : list ascii :=
  string_chars kx.1 ++ ":"%char :: stringify_chars kx.2.

(** The parser reads the text of [v] back, whatever follows it. *)
Definition round_trips (v : value) : Prop :=
  ∀ fuel rest,
    (List.length (stringify_chars v) ≤ fuel)%nat → follows rest →
    parse_value fuel (stringify_chars v ++ rest) = Some (v, rest).

(** What [JSON.parse] reads back from the text of any value: [undefined]
    as [null] inside an array and at the top, a property whose value is
    [undefined] not at all. *)
Fixpoint reparsed (v : value) : value :=
  match v with
  | VUndefined => VNull
  | VNull | VBool _ | VNum _ | VStr _ => v
  | VArr l => VArr (reparsed <$> l)
  | VObj m =>
      VObj (omap (λ x, match x with
                       | VUndefined => None
                       | _ => Some (reparsed x)
                       end) m)
  end.

(** The parser reads the text of [v] as [reparsed v], whatever follows. *)
Definition reads (v : value) : Prop :=
  ∀ fuel rest,
    (List.length (stringify_chars v) ≤ fuel)%nat → follows rest →
    parse_value fuel (stringify_chars v ++ rest) = Some (reparsed v, rest).

End Json.

(** ** [cache.types.ts] and [cache.constants.ts] *)

Module Types.

(** One segment of a key: [string | number]. *)
Inductive segment :=
| SStr (s : string)
| SNum (n : Z).

Global Instance segment_eq_dec : EqDecision segment.
Proof. solve_decision. Defined.

Global Instance segment_countable : Countable segment.
Proof.
  refine (inj_countable'
            (λ s, match s with SStr x => inl x | SNum n => inr n end)
            (λ x, match x with inl x => SStr x | inr n => SNum n end) _).
  by intros [].
Defined.

Definition CacheKey := list segment.

(** The parameters of [set]. The two durations are integers, numbers of
    milliseconds; [Infinity] and [NaN] are not among them. *)
Record SetCacheParams := {
  key : CacheKey;
  data : value;
  staleTime : option Z;
  cacheTime : option Z;
}.

Record CacheEntryResult := {
  r_data : value;
  r_stale : bool;
}.

Record CacheOptions := {
  gcInterval : option Z;
  defaultStaleTime : option Z;
  defaultCacheTime : option Z;
  debug : bool;
}.

Record CacheEntry := {
  e_data : value;
  e_timestamp : Z;
  e_staleTime : Z;
  e_cacheTime : Z;
}.

Global Instance CacheEntry_eq_dec : EqDecision CacheEntry.
Proof. solve_decision. Defined.

(** Modelled from the spec: the file [cache.constants.ts], which exports
    these three library defaults, is not among the sources; they are
    parameters of the development. *)
Class Constants := {
  DEFAULT_STALE_TIME : Z;
  DEFAULT_CACHE_TIME : Z;
  DEFAULT_GC_INTERVAL : Z;
}.

(** [a ?? b ?? c] *)
Definition nullish (a b : option Z) (c : Z) : Z := default (default c b) a.

(** The entry both stores build in [set]: the time fields are
    [staleTime ?? this.options.defaultStaleTime ?? DEFAULT_STALE_TIME] and
    its analogue for [cacheTime]. *)
Definition newEntry {C : Constants} (now : Z) (o : CacheOptions) (p : SetCacheParams) : CacheEntry :=
  {| e_data := data p;
     e_timestamp := now;
     e_staleTime := nullish (staleTime p) (defaultStaleTime o) DEFAULT_STALE_TIME;
     e_cacheTime := nullish (cacheTime p) (defaultCacheTime o) DEFAULT_CACHE_TIME |}.

(** The default of the parameter [options] of both constructors. *)
Definition defaultOptions {C : Constants} : CacheOptions :=
  {| gcInterval := Some DEFAULT_GC_INTERVAL;
     defaultStaleTime := Some DEFAULT_STALE_TIME;
     defaultCacheTime := Some DEFAULT_CACHE_TIME;
     debug := false |}.

(** The [{ data: null, stale: false }] of a miss. *)
Definition miss : CacheEntryResult := {| r_data := VNull; r_stale := false |}.

(** The interface [CacheStore]. A method takes the store it is called on
    and returns the store it leaves, with how it completed; [get] does not
    change the store. [stopGarbageCollector] only clears the timer. *)
Class CacheStore (S : Type) := {
  cache_set : Z → SetCacheParams → S → S * outcome unit;
  cache_get : Z → CacheKey → S → outcome CacheEntryResult;
  cache_invalidate : CacheKey → S → S * outcome unit;
  cache_cleanUp : Z → S → S * outcome unit;
}.

(** Values of the constants for the examples below; no statement depends
    on them. *)
Definition sample_constants : Constants :=
  {| DEFAULT_STALE_TIME := 300000;
     DEFAULT_CACHE_TIME := 600000;
     DEFAULT_GC_INTERVAL := 60000 |}.

End Types.
Export Types.

(** ** [cache-store-in-memory.ts] *)

Module InMemory.

(** [type CacheStoreMap = Map<string | number, CacheStoreMap | CacheEntry>]:
    what a [Map] of the tree holds under a segment is again a [Map], or an
    entry. *)
Inductive CacheStoreNode :=
| NMap (m : gmap segment CacheStoreNode)
| NEntry (e : CacheEntry).

Abbreviation CacheStoreMap := (gmap segment CacheStoreNode).

(** The reserved property under which a node holds its entry. *)
Definition marker : segment := SStr "cacheEntry".

Record CacheStoreInMemory := {
  store : CacheStoreMap;
  options : CacheOptions;
}.

Definition with_store (c : CacheStoreInMemory) (m : CacheStoreMap) : CacheStoreInMemory :=
  {| store := m; options := options c |}.

(** [getOrCreateNode(map, key)]. The loop walks down from [map], adding an
    empty [Map] where a segment is missing. The result is the tree after
    these insertions; the node the source returns is the one now found at
    [key]. The cast [current.get(part) as CacheStoreMap] is unchecked: when
    the walk meets an entry before the last segment, the next
    [current.has(part)] throws. *)
Fixpoint getOrCreateNode (map : CacheStoreMap) (key : CacheKey) : CacheStoreMap * outcome unit :=
  match key with
  | [] => (map, Ok ())
  | part :: rest =>
      match default (NMap ∅) (map !! part) with
      | NMap child =>
          let '(child', r) := getOrCreateNode child rest in
          (<[part := NMap child']> map, r)
      | NEntry _ =>
          match rest with
          | [] => (map, Ok ())
          | _ :: _ => (map, Throw (TypeError "current.has is not a function"))
          end
      end
  end.

(** [getNode(map, key)]: [None] is [undefined]. *)
Fixpoint getNode (map : CacheStoreMap) (key : CacheKey) : option CacheStoreNode :=
  match key with
  | [] => Some (NMap map)
  | part :: rest =>
      match map !! part with
      | Some (NMap child) => getNode child rest
      | Some (NEntry e) =>
          match rest with
          | [] => Some (NEntry e)
          | _ :: _ => None
          end
      | None => None
      end
  end.

(** A method call [node.m(...)] on the [Map] that [getNode(map, path)]
    returned: the object is mutated in place, so the change [f] is seen
    from the root. Nothing happens when there is no [Map] at [path]. *)
Fixpoint mutateNode (f : CacheStoreMap → CacheStoreMap) (map : CacheStoreMap) (path : CacheKey) : CacheStoreMap :=
  match path with
  | [] => f map
  | part :: rest =>
      match map !! part with
      | Some (NMap child) => <[part := NMap (mutateNode f child rest)]> map
      | _ => map
      end
  end.

Definition isStale (now : Z) (entry : CacheEntry) : bool :=
  bool_decide (e_staleTime entry < now - e_timestamp entry).

Definition isExpired (currentTime : Z) (entry : CacheEntry) : bool :=
  bool_decide (e_cacheTime entry < currentTime - e_timestamp entry).

Section Store.
Context {C : Constants}.

(** [new CacheStoreInMemory(options)] *)
Definition create (o : CacheOptions) : CacheStoreInMemory :=
  {| store := ∅; options := o |}.

(** [set({ key, data, staleTime, cacheTime })] *)
Definition set (now : Z) (p : SetCacheParams) (c : CacheStoreInMemory) : CacheStoreInMemory * outcome unit :=
  match key p with
  | [] => (c, Ok ())
  | _ :: _ =>
      let '(created, r) := getOrCreateNode (store c) (key p) in
      match r with
      | Throw e => (with_store c created, Throw e)
      | Ok _ =>
          match getNode created (key p) with
          | Some (NMap _) =>
              (with_store c
                 (mutateNode (insert marker (NEntry (newEntry now (options c) p)))
                    created (key p)),
               Ok ())
          | _ => (with_store c created, Throw (TypeError "node.set is not a function"))
          end
      end
  end.

End Store.

(** [get(key)]. When the value under the marker is itself a [Map], it is
    read as an entry all the same: its [data] is [undefined] and the
    comparison of [isStale], on [NaN], is false. *)
Definition get (now : Z) (key : CacheKey) (c : CacheStoreInMemory) : CacheEntryResult :=
  match getNode (store c) key with
  | Some (NMap node) =>
      match node !! marker with
      | None => miss
      | Some (NEntry entry) => {| r_data := e_data entry; r_stale := isStale now entry |}
      | Some (NMap _) => {| r_data := VUndefined; r_stale := false |}
      end
  | _ => miss
  end.

(** [invalidate(key)]: [key.slice(0, -1)] is [removelast key] and
    [key[key.length - 1]] is [last key]; for the empty key the latter is
    [undefined], which no [Map] of the tree has as a key. *)
Definition invalidate (key : CacheKey) (c : CacheStoreInMemory) : CacheStoreInMemory :=
  match last key with
  | None => c
  | Some lastKey => with_store c (mutateNode (delete lastKey) (store c) (removelast key))
  end.

(** The body of the loop of [cleanUpNode] for one [[key, value]] pair:
    [None] when the pair is deleted, otherwise the value left under [key]. *)
Fixpoint cleanUpValue (currentTime : Z) (value : CacheStoreNode) : option CacheStoreNode :=
  match value with
  | NMap child => Some (NMap (omap (cleanUpValue currentTime) child))
  | NEntry entry => if isExpired currentTime entry then None else Some value
  end.

Definition cleanUpNode (node : CacheStoreMap) (currentTime : Z) : CacheStoreMap :=
  omap (cleanUpValue currentTime) node.

Definition cleanUp (now : Z) (c : CacheStoreInMemory) : CacheStoreInMemory :=
  with_store c (cleanUpNode (store c) now).

Global Instance CacheStore_InMemory {C : Constants} : CacheStore CacheStoreInMemory := {
  cache_set := set;
  cache_get now key c := Ok (get now key c);
  cache_invalidate key c := (invalidate key c, Ok ());
  cache_cleanUp now c := (cleanUp now c, Ok ());
}.

(** *** Notions used to state the properties of the store *)

(** What [get(key)] reads: the value under the marker in the node at
    [key]. *)
Definition slot (m : CacheStoreMap) (key : CacheKey) : option CacheStoreNode :=
  getNode m (key ++ [marker]).

(** The entry stored at [key], if there is one. *)
Definition entryAt (c : CacheStoreInMemory) (key : CacheKey) : option CacheEntry :=
  match slot (store c) key with
  | Some (NEntry e) => Some e
  | _ => None
  end.

(** The shape of the trees the methods build: an entry only ever sits
    under the marker. The type [CacheStoreMap] also has trees with an entry
    under another segment, which no sequence of calls produces. *)
Inductive wf_map : CacheStoreMap → Prop :=
| wf_map_intro m :
    (∀ k e, m !! k = Some (NEntry e) → k = marker) →
    (∀ k child, m !! k = Some (NMap child) → wf_map child) →
    wf_map m.

Definition wf (c : CacheStoreInMemory) : Prop := wf_map (store c).

End InMemory.

(** ** [cache-store-mmkv.ts] *)

Module MMKV.

(** The MMKV instance is a flat map from strings to strings. *)
Record CacheStoreMMKV := {
  mmkvInstance : gmap string string;
  options : CacheOptions;
}.

Definition with_instance (c : CacheStoreMMKV) (m : gmap string string) : CacheStoreMMKV :=
  {| mmkvInstance := m; options := options c |}.

(** [String(part)] of a key segment. A numeric segment is an integer that
    JavaScript prints as its decimal digits: one of magnitude up to
    [2^53 - 1]. *)
Definition segment_string (part : segment) : string :=
  match part with
  | SStr s => s
  | SNum n => string_of_list_ascii (Json.number_chars n)
  end.

(** [Array.prototype.join] *)
Fixpoint join (separator : string) (parts : list string) : string :=
  match parts with
  | [] => ""
  | [x] => x
  | x :: rest => x +:+ separator +:+ join separator rest
  end.

Definition keyToString (key : CacheKey) : string :=
  join ":" (segment_string <$> key).

(** The conversion of an array operand of [+] to a string,
    [Array.prototype.toString]: the elements joined by commas. *)
Definition array_toString (a : CacheKey) : string :=
  join "," (segment_string <$> a).

(** [key.startsWith(prefix)] *)
Definition startsWith (key prefix : string) : bool := String.prefix prefix key.

(** The object [{ data, timestamp, staleTime, cacheTime }] that [set]
    serialises. *)
Definition entry_value (e : CacheEntry) : value :=
  VObj (<["data" := e_data e]>
       (<["timestamp" := VNum (e_timestamp e)]>
       (<["staleTime" := VNum (e_staleTime e)]>
       (<["cacheTime" := VNum (e_cacheTime e)]> ∅)))).

(** [new CacheStoreMMKV(options)]. The constructor opens the MMKV
    instance of the fixed id ["network-cache"] and does not clear it: the
    store starts from the records [persisted] there, those an earlier
    store left. *)
Definition create (o : CacheOptions) (persisted : gmap string string) : CacheStoreMMKV :=
  {| mmkvInstance := persisted; options := o |}.

(** [set({ key, data, staleTime, cacheTime })] *)
Definition set {C : Constants} (now : Z) (p : SetCacheParams) (c : CacheStoreMMKV) : CacheStoreMMKV :=
  match key p with
  | [] => c
  | _ :: _ =>
      let entry := newEntry now (options c) p in
      with_instance c
        (<[keyToString (key p) := Json.stringify (entry_value entry)]> (mmkvInstance c))
  end.

(** [Date.now() - entry.timestamp > entry.staleTime] on a parsed record. *)
Definition isStale (now : Z) (entry : value) : outcome bool :=
  timestamp ← getProp entry "timestamp";
  staleTime ← getProp entry "staleTime";
  mret (olderThan now timestamp staleTime).

(** [currentTime - entry.timestamp > entry.cacheTime] on a parsed record. *)
Definition isExpired (currentTime : Z) (entry : value) : outcome bool :=
  timestamp ← getProp entry "timestamp";
  cacheTime ← getProp entry "cacheTime";
  mret (olderThan currentTime timestamp cacheTime).

(** [get(key)]: [getString] gives [undefined] for a key without record,
    and [!storedValue] also holds of the empty string. *)
Definition get (now : Z) (key : CacheKey) (c : CacheStoreMMKV) : outcome CacheEntryResult :=
  match mmkvInstance c !! keyToString key with
  | None => Ok miss
  | Some storedValue =>
      if String.eqb storedValue "" then Ok miss
      else
        match Json.parse storedValue with
        | None => Throw SyntaxError
        | Some entry =>
            stale ← isStale now entry;
            data ← getProp entry "data";
            mret {| r_data := data; r_stale := stale |}
        end
  end.

Definition getAllKeys (m : gmap string string) : list string := (map_to_list m).*1.

(** [invalidate(path)]. The filter compares each physical key with
    [keyToDelete] and tests [key.startsWith(path + ":")], where [path] is
    the array itself. *)
Definition invalidate (path : CacheKey) (c : CacheStoreMMKV) : CacheStoreMMKV :=
  let keyToDelete := keyToString path in
  let allKeys := getAllKeys (mmkvInstance c) in
  let keysToDelete :=
    List.filter
      (λ key, if String.eqb key keyToDelete then true
              else startsWith key (array_toString path +:+ ":"))
      allKeys in
  with_instance c (foldl (λ m k, delete k m) (mmkvInstance c) keysToDelete).

(** The loop of [cleanUp] over the keys read at its start. *)
Fixpoint cleanUpKeys (currentTime : Z) (keys : list string) (m : gmap string string) : gmap string string * outcome unit :=
  match keys with
  | [] => (m, Ok ())
  | keyStr :: rest =>
      match m !! keyStr with
      | None => cleanUpKeys currentTime rest m
      | Some storedValue =>
          if String.eqb storedValue "" then cleanUpKeys currentTime rest m
          else
            match Json.parse storedValue with
            | None => (m, Throw SyntaxError)
            | Some entry =>
                match isExpired currentTime entry with
                | Throw e => (m, Throw e)
                | Ok true => cleanUpKeys currentTime rest (delete keyStr m)
                | Ok false => cleanUpKeys currentTime rest m
                end
            end
      end
  end.

Definition cleanUp (now : Z) (c : CacheStoreMMKV) : CacheStoreMMKV * outcome unit :=
  let '(m, r) := cleanUpKeys now (getAllKeys (mmkvInstance c)) (mmkvInstance c) in
  (with_instance c m, r).

Global Instance CacheStore_MMKV {C : Constants} : CacheStore CacheStoreMMKV := {
  cache_set now p c := (set now p c, Ok ());
  cache_get := get;
  cache_invalidate key c := (invalidate key c, Ok ());
  cache_cleanUp := cleanUp;
}.

(** *** Notions used to state the properties of the store *)

(** The record [set] writes for an entry. *)
Definition record_of (e : CacheEntry) : string := Json.stringify (entry_value e).

(** The store holds the entry [e] at [key]. *)
Definition holds (c : CacheStoreMMKV) (key : CacheKey) (e : CacheEntry) : Prop :=
  mmkvInstance c !! keyToString key = Some (record_of e) ∧
  Json.representable (e_data e) = true.

(** Every record of the instance was written by [set], for data that JSON
    represents. *)
Definition well_formed (c : CacheStoreMMKV) : Prop :=
  ∀ k s, mmkvInstance c !! k = Some s →
    ∃ e, s = record_of e ∧ Json.representable (e_data e) = true.

(** The store has at [key] the record [set] writes for the entry [e],
    whatever its data. *)
Definition stores (c : CacheStoreMMKV) (key : CacheKey) (e : CacheEntry) : Prop :=
  mmkvInstance c !! keyToString key = Some (record_of e).




(** Whether the loop of [cleanUp] finds the record expired. *)
Definition expired_record (currentTime : Z) (storedValue : string) : bool :=
  match Json.parse storedValue with
  | Some entry =>
      match isExpired currentTime entry with
      | Ok b => b
      | Throw _ => false
      end
  | None => false
  end.

(** What the loop over [keys] leaves of the record [s] under the key [j]. *)
Definition kept (now : Z) (keys : list string) (j s : string) : option string :=
  if bool_decide (j ∈ keys) && expired_record now s then None else Some s.

End MMKV.

(** ** [query-with-cache.ts] *)

Module Query.

(** What one call of the orchestrator does to its surroundings, in order:
    the callbacks it invokes with their arguments, the invocation of the
    fetch operation, and its calls of the store. *)
Inductive event :=
| CacheGet (key : CacheKey)
| OnData (data : value)
| OnIsFetching (isFetching : bool)
| QueryFn
| CacheSet (p : SetCacheParams)
| OnError (error : error).

(** The fetch operation [queryFn]: the time the promise it returns takes
    to settle, and whether it is fulfilled with a value or rejected. *)
Record FetchFunction := {
  elapsed : Z;
  settles : outcome value;
}.

(** The callbacks are the caller's. What the orchestrator sees of one is
    how its invocation completes: it returns, or it throws. They are taken
    to leave the store alone. *)
Record Callbacks := {
  onData_completes : value → outcome unit;
  onIsFetching_completes : bool → outcome unit;
  onError_completes : error → outcome unit;
}.

(** Callbacks that return normally on every argument. *)
Definition returning : Callbacks :=
  {| onData_completes := λ _, Ok ();
     onIsFetching_completes := λ _, Ok ();
     onError_completes := λ _, Ok () |}.

(** How the invocation recorded by [e] completes. *)
Definition completes (callbacks : Callbacks) (e : event) : outcome unit :=
  match e with
  | OnData d => onData_completes callbacks d
  | OnIsFetching b => onIsFetching_completes callbacks b
  | OnError error => onError_completes callbacks error
  | CacheGet _ | QueryFn | CacheSet _ => Ok ()
  end.

(** The parameters of [queryWithCache], without [cache] (the store is the
    state, below) and the behaviour of the callbacks (above). For the two
    optional callbacks the field tells whether one was supplied. *)
Record QueryWithCacheParams := {
  queryKey : CacheKey;
  cacheExpirationTime : option Z;
  cacheStoredTime : option Z;
  queryFn : FetchFunction;
  onIsFetching : bool;
  onError : bool;
}.

(** The parameters of the [set] the orchestrator performs. *)
Definition written (p : QueryWithCacheParams) (result : value) : SetCacheParams :=
  {| key := queryKey p;
     data := result;
     staleTime := cacheExpirationTime p;
     cacheTime := cacheStoredTime p |}.

(** The events of a call that goes on to fetch, up to the invocation of
    the fetch operation, when the first read returned the data [d]. *)
Definition before_fetch (p : QueryWithCacheParams) (d : value) : list event :=
  CacheGet (queryKey p)
  :: (if truthy d then [OnData d] else [])
  ++ (if negb (truthy d) && onIsFetching p then [OnIsFetching true] else [])
  ++ [QueryFn].

(** The events of the [finally] block. *)
Definition finally (p : QueryWithCacheParams) (d : value) : list event :=
  if negb (truthy d) && onIsFetching p then [OnIsFetching false] else [].

(** The arguments of the invocations of [onData] among the events. *)
Definition deliveries (events : list event) : list value :=
  omap (λ e, match e with OnData d => Some d | _ => None end) events.

Section Orchestrator.
Context {S : Type} {store_ops : CacheStore S}.

(** The state an orchestrator call runs in. Between the call and its
    completion nothing else touches the store. *)
Record world := {
  cache : S;
  clock : Z;
  trace : list event;
}.

Definition M (A : Type) : Type := world → world * outcome A.

Definition ret {A} (a : A) : M A := λ w, (w, Ok a).

Definition throw {A} (e : error) : M A := λ w, (w, Throw e).

Definition bind {A B} (m : M A) (k : A → M B) : M B := λ w,
  match m w with
  | (w', Ok a) => k a w'
  | (w', Throw e) => (w', Throw e)
  end.

Definition record (e : event) (w : world) : world :=
  {| cache := cache w; clock := clock w; trace := trace w ++ [e] |}.

(** The invocation of a callback: it is recorded, and completes as the
    callback does. *)
Definition call (callbacks : Callbacks) (e : event) : M unit := λ w,
  (record e w, completes callbacks e).

Definition when (b : bool) (m : M unit) : M unit := if b then m else ret ().

(** [cache.get(key)] *)
Definition cacheGet (key : CacheKey) : M CacheEntryResult := λ w,
  (record (CacheGet key) w, cache_get (clock w) key (cache w)).

(** [cache.set(params)] *)
Definition cacheSet (p : SetCacheParams) : M unit := λ w,
  let '(c, r) := cache_set (clock w) p (cache w) in
  ({| cache := c; clock := clock w; trace := trace w ++ [CacheSet p] |}, r).

(** [await queryFn()] *)
Definition await (f : FetchFunction) : M value := λ w,
  ({| cache := cache w; clock := clock w + elapsed f; trace := trace w ++ [QueryFn] |},
   settles f).

(** [try { body } catch (error) { handler } finally { finalizer }]: the
    finalizer runs on every way out; if it completes normally the outcome
    is that of the body, or of the handler when the body threw. *)
Definition try_catch_finally {A} (body : M A) (handler : error → M A) (finalizer : M unit) : M A := λ w,
  let '(w1, r1) :=
    match body w with
    | (w', Ok a) => (w', Ok a)
    | (w', Throw e) => handler e w'
    end in
  match finalizer w1 with
  | (w2, Ok _) => (w2, r1)
  | (w2, Throw e) => (w2, Throw e)
  end.

Local Instance M_ret : MRet M := @ret.
Local Instance M_bind : MBind M := λ A B k m, bind m k.

Definition queryWithCache (callbacks : Callbacks) (p : QueryWithCacheParams) : M unit :=
  cacheEntry ← cacheGet (queryKey p);
  let shouldCallIsFetching := negb (truthy (r_data cacheEntry)) && onIsFetching p in
  returned ←
    (if truthy (r_data cacheEntry)
     then call callbacks (OnData (r_data cacheEntry));; ret (negb (r_stale cacheEntry))
     else ret false);
  if returned : bool then ret ()
  else
    when shouldCallIsFetching (call callbacks (OnIsFetching true));;
    try_catch_finally
      (result ← await (queryFn p);
       when (negb (isEqual result (r_data cacheEntry))) (call callbacks (OnData result));;
       cacheSet {| key := queryKey p;
                   data := result;
                   cacheTime := cacheStoredTime p;
                   staleTime := cacheExpirationTime p |})
      (λ error, if onError p then call callbacks (OnError error) else throw error)
      (when shouldCallIsFetching (call callbacks (OnIsFetching false))).

(** A call of the orchestrator at time [now] on the store [c]: the store
    it leaves, the events in order, and whether the promise it returns is
    fulfilled or rejected. *)
Definition runWith (callbacks : Callbacks) (p : QueryWithCacheParams) (now : Z) (c : S) : S * list event * outcome unit :=
  let '(w, r) := queryWithCache callbacks p {| cache := c; clock := now; trace := [] |} in
  (cache w, trace w, r).

(** A call all of whose callbacks return normally. *)
Definition run (p : QueryWithCacheParams) (now : Z) (c : S) : S * list event * outcome unit :=
  runWith returning p now c.

End Orchestrator.

End Query.

(** * Properties

    First the facts about each component, then the statements of the
    specification. *)

(** ** The JSON round trip *)

Module JsonFacts.
Import Json.

Lemma chars_of_list l : chars (string_of_list_ascii l) = l.
Proof. apply list_ascii_of_string_of_list_ascii. Qed.

Lemma string_of_chars s : string_of_list_ascii (chars s) = s.
Proof. apply string_of_list_ascii_of_string. Qed.

Lemma follows_digit c rest : follows (c :: rest) → digit_of c = None.
Proof. intros [->| [->| ->]]; reflexivity. Qed.

Lemma scan_uint_chars u rest :
  follows rest → scan_uint (uint_chars u ++ rest) = (u, rest).
Proof.
  intros Hrest. induction u; cbn [uint_chars app scan_uint digit_of]; try (cbn; rewrite IHu; reflexivity).
  destruct rest as [|c rest']; [done|].
  cbn [scan_uint]. by rewrite (follows_digit _ _ Hrest).
Qed.

Lemma to_int_norm n : Decimal.norm (Z.to_int n) = Z.to_int n.
Proof. rewrite <- (DecimalZ.to_of (Z.to_int n)). by rewrite DecimalZ.of_to. Qed.

Lemma to_int_digits n :
  ∃ u, u ≠ Decimal.Nil ∧ Decimal.unorm u = u ∧
       (Z.to_int n = Decimal.Pos u ∨ Z.to_int n = Decimal.Neg u).
Proof.
  pose proof (to_int_norm n) as Hn.
  destruct (Z.to_int n) as [u|u] eqn:Hu.
  - exists u. cbn in Hn. injection Hn as Hn. split_and!; [|done|by left].
    intros ->. by apply (unorm_nonnil Decimal.Nil).
  - exists u. cbn in Hn. destruct (Decimal.nzhead u) eqn:Hz; try discriminate;
      injection Hn as Hn; subst u;
      (split_and!; [done| |by right]);
      unfold Decimal.unorm; by rewrite Hz.
Qed.

Lemma uint_beq_refl u : Decimal.uint_beq u u = true.
Proof. by apply Decimal.internal_uint_dec_lb. Qed.

Lemma parse_number_chars n rest :
  follows rest → parse_number (number_chars n ++ rest) = Some (n, rest).
Proof.
  intros Hrest. unfold number_chars.
  destruct (to_int_digits n) as (u & Hnil & Hnorm & [Hu|Hu]); rewrite Hu.
  - unfold parse_number.
    assert (∃ c t, uint_chars u = c :: t ∧ c ≠ "-"%char) as (c & t & Hc & Hminus).
    { destruct u; try done; eexists _, _; (split; [reflexivity|done]). }
    rewrite Hc. cbn [app].
    assert ((match c :: t ++ rest with
             | "-"%char :: r => (true, r)
             | _ => (false, c :: t ++ rest)
             end) = (false, c :: t ++ rest)) as ->.
    { destruct c as [[] [] [] [] [] [] [] []]; try reflexivity. by destruct Hminus. }
    change (c :: t ++ rest) with ((c :: t) ++ rest). rewrite <- Hc.
    rewrite (scan_uint_chars _ _ Hrest), Hnorm, uint_beq_refl. cbn [negb].
    rewrite <- Hu, DecimalZ.of_to.
    destruct u; try done; destruct rest as [|c' rest']; try done;
      destruct Hrest as [->| [->| ->]]; reflexivity.
  - unfold parse_number. cbn [app].
    rewrite (scan_uint_chars _ _ Hrest), Hnorm, uint_beq_refl. cbn [negb].
    rewrite <- Hu, DecimalZ.of_to.
    destruct u; try done; destruct rest as [|c' rest']; try done;
      destruct Hrest as [->| [->| ->]]; reflexivity.
Qed.

Lemma number_chars_head n :
  ∃ c t, number_chars n = c :: t ∧ (c = "-"%char ∨ is_Some (digit_of c)).
Proof.
  unfold number_chars.
  destruct (to_int_digits n) as (u & Hnil & Hnorm & [Hu|Hu]); rewrite Hu.
  - destruct u; try done; eexists _, _; (split; [reflexivity|right; by eexists]).
  - eexists _, _. split; [reflexivity|by left].
Qed.

Lemma parse_string_escape c t :
  parse_string (escape c ++ t) =
    match parse_string t with
    | Some (str, rest) => Some (c :: str, rest)
    | None => None
    end.
Proof.
  destruct c as [[] [] [] [] [] [] [] []]; reflexivity.
Qed.

Lemma parse_string_chars l rest :
  parse_string (flat_map escape l ++ dquote :: rest) = Some (l, rest).
Proof.
  induction l as [|c l IH]; [done|].
  cbn [flat_map]. rewrite <- app_assoc, parse_string_escape. by rewrite IH.
Qed.


(** *** Induction on values *)

Lemma value_size_elem x l :
  x ∈ l → (value_size x < value_size (VArr l))%nat.
Proof.
  intros Hx. cbn [value_size]. apply Nat.lt_succ_r.
  induction Hx as [x l|x y l Hx IH]; cbn [foldr]; cbn beta;
    [apply Nat.le_add_r|eapply Nat.le_trans; [exact IH|apply Nat.le_add_l]].
Qed.

Lemma value_size_lookup (m : gmap string value) k x :
  m !! k = Some x → (value_size x < value_size (VObj m))%nat.
Proof.
  intros Hx. cbn [value_size]. apply Nat.lt_succ_r.
  rewrite map_fold_foldr. apply elem_of_map_to_list in Hx.
  change (value_size x) with (value_size (k, x).2).
  induction Hx as [kx l|kx [k' y] l Hx IH]; cbn [foldr uncurry]; cbn beta;
    [destruct kx; apply Nat.le_add_r|eapply Nat.le_trans; [exact IH|apply Nat.le_add_l]].
Qed.

Lemma representable_arr l :
  representable (VArr l) = true ↔ ∀ x, x ∈ l → representable x = true.
Proof.
  cbn [representable]. rewrite forallb_forall.
  split; intros H x Hx; apply H; by apply list_elem_of_In.
Qed.

Lemma representable_obj (m : gmap string value) :
  representable (VObj m) = true ↔ ∀ k x, m !! k = Some x → representable x = true.
Proof.
  cbn [representable]. rewrite map_fold_foldr.
  transitivity (∀ kx, kx ∈ map_to_list m → representable kx.2 = true).
  - induction (map_to_list m) as [|[k x] l IH]; cbn [foldr uncurry].
    + split; [intros _ kx Hkx; by apply elem_of_nil in Hkx|done].
    + simpl. rewrite andb_true_iff, IH. split.
      * intros [Hx Hl] kx Hkx. apply elem_of_cons in Hkx as [->|Hkx]; [done|by apply Hl].
      * intros H. split; [apply (H (k, x)); left|intros kx Hkx; apply H; by right].
  - split.
    + intros H k x Hx. apply (H (k, x)). by apply elem_of_map_to_list.
    + intros H [k x] Hx. apply (H k). by apply elem_of_map_to_list.
Qed.

(** *** The text of a representable value *)

Lemma members_defined (l : list (string * value)) :
  (∀ kx, kx ∈ l → kx.2 ≠ VUndefined) →
  foldr (uncurry (λ (k : string) (x : value) (acc : list (list ascii)),
           match x with
           | VUndefined => acc
           | _ => (string_chars k ++ ":"%char :: stringify_chars x) :: acc
           end)) [] l
  = member_chars <$> l.
Proof.
  induction l as [|[k x] l IH]; intros Hdef; [done|].
  cbn [foldr uncurry fmap list_fmap]. rewrite IH by (intros kx Hkx; apply Hdef; by right).
  assert (x ≠ VUndefined) as Hx by (apply (Hdef (k, x)); left).
  by destruct x.
Qed.

Lemma stringify_chars_obj (m : gmap string value) :
  representable (VObj m) = true →
  stringify_chars (VObj m) =
    "{"%char :: join_comma (member_chars <$> map_to_list m) ++ ["}"%char].
Proof.
  intros Hm. cbn [stringify_chars]. do 3 f_equal.
  rewrite map_fold_foldr. apply members_defined.
  intros [k x] Hkx Hx. simpl in Hx. subst x.
  apply elem_of_map_to_list in Hkx.
  by apply (proj1 (representable_obj m) Hm) in Hkx.
Qed.

Lemma stringify_chars_length v : (1 ≤ List.length (stringify_chars v))%nat.
Proof.
  destruct v as [| |[]|n|s|l|m]; cbn; try lia.
  destruct (number_chars_head n) as (c & t & -> & _). cbn. lia.
Qed.

Lemma value_head_number c :
  c = "-"%char ∨ is_Some (digit_of c) → is_ws c = false ∧ c ≠ "]"%char.
Proof.
  destruct c as [[] [] [] [] [] [] [] []]; intros [H|[d H]];
    try discriminate H; by split.
Qed.

Lemma stringify_chars_head v :
  ∃ c t, stringify_chars v = c :: t ∧ is_ws c = false ∧ c ≠ "]"%char.
Proof.
  destruct v as [| |[]|n|s|l|m]; try (eexists _, _; split; [reflexivity|by split]).
  destruct (number_chars_head n) as (c & t & Hn & Hc).
  exists c, t. split; [done|]. by apply value_head_number.
Qed.

Lemma match_not_bracket {A} c s (a : list ascii → A) (b : A) :
  c ≠ "]"%char →
  match c :: s with
  | "]"%char :: rest => a rest
  | _ => b
  end = b.
Proof.
  intros Hc. destruct c as [[] [] [] [] [] [] [] []]; try reflexivity. by destruct Hc.
Qed.

(** *** Unfolding the parser *)

Lemma parse_value_number fuel c s :
  c = "-"%char ∨ is_Some (digit_of c) →
  parse_value (S fuel) (c :: s) =
    match parse_number (c :: s) with
    | Some (n, rest) => Some (VNum n, rest)
    | None => None
    end.
Proof.
  destruct c as [[] [] [] [] [] [] [] []]; intros [H|[d H]];
    try discriminate H; reflexivity.
Qed.

Lemma parse_value_array fuel c t :
  is_ws c = false → c ≠ "]"%char →
  parse_value (S fuel) ("["%char :: c :: t) =
    match parse_elements fuel (c :: t) with
    | Some (l, rest) => Some (VArr l, rest)
    | None => None
    end.
Proof.
  destruct c as [[] [] [] [] [] [] [] []]; intros Hws Hc;
    try discriminate Hws; try (by destruct Hc); reflexivity.
Qed.

Lemma parse_elements_S fuel s :
  parse_elements (S fuel) s =
    match parse_value fuel s with
    | Some (v, r) =>
        match skip_ws r with
        | ","%char :: r' =>
            match parse_elements fuel r' with
            | Some (l, rest) => Some (v :: l, rest)
            | None => None
            end
        | "]"%char :: rest => Some ([v], rest)
        | _ => None
        end
    | None => None
    end.
Proof. reflexivity. Qed.

Lemma parse_members_S fuel k t :
  parse_members (S fuel) (dquote :: flat_map escape k ++ dquote :: ":"%char :: t) =
    match parse_value fuel t with
    | Some (v, r3) =>
        match skip_ws r3 with
        | ","%char :: r4 =>
            match parse_members fuel r4 with
            | Some (l, rest) => Some ((string_of_list_ascii k, v) :: l, rest)
            | None => None
            end
        | "}"%char :: rest => Some ([(string_of_list_ascii k, v)], rest)
        | _ => None
        end
    | None => None
    end.
Proof.
  change (parse_members (S fuel) (dquote :: flat_map escape k ++ dquote :: ":"%char :: t))
    with (match parse_string (flat_map escape k ++ dquote :: ":"%char :: t) with
          | Some (k, r1) =>
              match skip_ws r1 with
              | ":"%char :: r2 =>
                  match parse_value fuel r2 with
                  | Some (v, r3) =>
                      match skip_ws r3 with
                      | ","%char :: r4 =>
                          match parse_members fuel r4 with
                          | Some (l, rest) => Some ((string_of_list_ascii k, v) :: l, rest)
                          | None => None
                          end
                      | "}"%char :: rest => Some ([(string_of_list_ascii k, v)], rest)
                      | _ => None
                      end
                  | None => None
                  end
              | _ => None
              end
          | None => None
          end).
  by rewrite parse_string_chars.
Qed.


(** *** The round trip *)

Lemma parse_elements_chars l rest fuel :
  l ≠ [] → (∀ v, v ∈ l → round_trips v) →
  (S (List.length (join_comma (stringify_chars <$> l))) ≤ fuel)%nat →
  parse_elements fuel (join_comma (stringify_chars <$> l) ++ "]"%char :: rest)
  = Some (l, rest).
Proof.
  revert fuel. induction l as [|v l IH]; intros fuel Hne Hl Hfuel; [done|].
  destruct fuel as [|fuel]; [lia|]. rewrite parse_elements_S.
  destruct l as [|v' l'].
  - cbn [fmap list_fmap join_comma] in *.
    rewrite (Hl v); [done|left|lia|cbn; auto].
  - cbn [fmap list_fmap join_comma] in *. rewrite length_app in Hfuel.
    cbn [List.length] in Hfuel. rewrite <- app_assoc. cbn [app].
    rewrite (Hl v); [|left|lia|cbn; auto].
    cbn [skip_ws is_ws]. rewrite IH; [done|done| |lia].
    intros x Hx. apply Hl. by right.
Qed.

Lemma parse_members_chars l rest fuel :
  l ≠ [] → (∀ kx, kx ∈ l → round_trips kx.2) →
  (S (List.length (join_comma (member_chars <$> l))) ≤ fuel)%nat →
  parse_members fuel (join_comma (member_chars <$> l) ++ "}"%char :: rest)
  = Some (l, rest).
Proof.
  revert fuel. induction l as [|[k v] l IH]; intros fuel Hne Hl Hfuel; [done|].
  destruct fuel as [|fuel]; [lia|].
  destruct l as [|kv' l'].
  - cbn [fmap list_fmap join_comma] in *. unfold member_chars, string_chars in *.
    cbn [fst snd] in *. rewrite <- !app_assoc. cbn [app].
    rewrite <- !app_assoc. cbn [app]. rewrite parse_members_S.
    rewrite !length_app in Hfuel. cbn [List.length] in Hfuel. rewrite !length_app in Hfuel.
    cbn [List.length] in Hfuel.
    rewrite (Hl (k, v)); [|left|cbn [snd]; lia|cbn; auto].
    cbn [skip_ws is_ws]. by rewrite string_of_chars.
  - cbn [fmap list_fmap join_comma] in *. unfold member_chars at 1, string_chars at 1.
    unfold member_chars at 1, string_chars at 1 in Hfuel.
    cbn [fst snd] in *. rewrite <- !app_assoc. cbn [app].
    rewrite <- !app_assoc. cbn [app]. rewrite parse_members_S.
    rewrite !length_app in Hfuel. cbn [List.length] in Hfuel. rewrite !length_app in Hfuel.
    cbn [List.length] in Hfuel.
    rewrite (Hl (k, v)); [|left|cbn [snd]; lia|cbn; auto].
    cbn [skip_ws is_ws]. rewrite IH; [by rewrite string_of_chars|done| |lia].
    intros x Hx. apply Hl. by right.
Qed.

Lemma object_of_snoc l k x :
  object_of (l ++ [(k, x)]) = <[k := x]> (object_of l).
Proof. unfold object_of. by rewrite foldl_app. Qed.

Lemma object_of_map_to_list (m : gmap string value) :
  object_of (map_to_list m) = m.
Proof.
  rewrite <- (list_to_map_to_list m) at 2.
  pose proof (NoDup_fst_map_to_list m) as Hnd.
  induction (map_to_list m) as [|[k x] l IH] using rev_ind; [done|].
  rewrite object_of_snoc, fmap_app in *. apply NoDup_app in Hnd as (Hl & Hk & _).
  rewrite IH by done. apply map_eq. intros j.
  rewrite lookup_insert. case_decide as Hj.
  - subst j. symmetry. apply elem_of_list_to_map.
    + rewrite fmap_app. apply NoDup_app. split_and!; [done| |apply NoDup_singleton].
      intros y Hy Hy'. apply (Hk y Hy). done.
    + apply elem_of_app. right. by left.
  - destruct (list_to_map l !! j) as [y|] eqn:Hy.
    + symmetry. apply elem_of_list_to_map.
      * rewrite fmap_app. apply NoDup_app. split_and!; [done|done|apply NoDup_singleton].
      * apply elem_of_app. left. by apply elem_of_list_to_map in Hy.
    + symmetry. apply not_elem_of_list_to_map. rewrite fmap_app.
      apply not_elem_of_list_to_map in Hy. intros Hin.
      apply elem_of_app in Hin as [Hin|Hin]; [done|].
      apply list_elem_of_singleton in Hin. by apply Hj.
Qed.

Lemma round_trips_all v : representable v = true → round_trips v.
Proof.
  remember (value_size v) as n eqn:Hn. revert v Hn.
  induction n as [n IH] using lt_wf_ind. intros v -> Hv fuel rest Hfuel Hrest.
  destruct v as [| |b|n|s|l|m].
  - done.
  - destruct fuel as [|fuel]; [cbn in Hfuel; lia|]. reflexivity.
  - destruct fuel as [|fuel]; [destruct b; cbn in Hfuel; lia|]. by destruct b.
  - destruct fuel as [|fuel]; [pose proof (stringify_chars_length (VNum n)); lia|].
    cbn [stringify_chars]. destruct (number_chars_head n) as (c & t & Hc & Hhead).
    pose proof (parse_number_chars n rest Hrest) as Hparse.
    rewrite Hc in *. cbn [app] in *. rewrite parse_value_number by done.
    by rewrite Hparse.
  - destruct fuel as [|fuel]; [cbn in Hfuel; lia|].
    cbn [stringify_chars]. unfold string_chars. cbn [app]. rewrite <- app_assoc. cbn [app].
    change (parse_value (S fuel) (dquote :: flat_map escape (chars s) ++ dquote :: rest))
      with (match parse_string (flat_map escape (chars s) ++ dquote :: rest) with
            | Some (str, rest) => Some (VStr (string_of_list_ascii str), rest)
            | None => None
            end).
    by rewrite parse_string_chars, string_of_chars.
  - destruct fuel as [|fuel]; [cbn in Hfuel; lia|].
    cbn [stringify_chars] in *. cbn [app]. rewrite <- app_assoc. cbn [app].
    destruct l as [|v l]; [reflexivity|].
    set (text := join_comma (stringify_chars <$> v :: l)) in *.
    assert (∃ c t, text = c :: t ∧ is_ws c = false ∧ c ≠ "]"%char) as (c & t & Htext & Hws & Hc).
    { destruct (stringify_chars_head v) as (c & t & Hv' & Hc). unfold text.
      cbn [fmap list_fmap join_comma]. rewrite Hv'.
      destruct l; [by eauto|]. cbn [app]. by eauto. }
    rewrite Htext. cbn [app]. rewrite parse_value_array by done.
    change (c :: t ++ "]"%char :: rest) with ((c :: t) ++ "]"%char :: rest).
    rewrite <- Htext.
    unfold text. rewrite parse_elements_chars; [done|done| |].
    + intros x Hx. eapply IH; [|reflexivity|].
      * by apply value_size_elem.
      * by apply (proj1 (representable_arr _) Hv).
    + cbn [List.length] in Hfuel. rewrite length_app in Hfuel.
      cbn [List.length] in Hfuel. fold text. lia.
  - destruct fuel as [|fuel]; [cbn in Hfuel; lia|].
    rewrite stringify_chars_obj in * by done. cbn [app]. rewrite <- app_assoc. cbn [app].
    destruct (map_to_list m) as [|[k x] l] eqn:Hlist.
    { apply map_to_list_empty_iff in Hlist as ->. reflexivity. }
    set (members := (k, x) :: l) in *.
    set (text := join_comma (member_chars <$> members)) in *.
    assert (∃ t, text = dquote :: t) as [t Htext].
    { unfold text, members. cbn [fmap list_fmap join_comma].
      unfold member_chars at 1, string_chars. cbn [fst snd app].
      destruct l; cbn [app]; by eauto. }
    change (parse_value (S fuel) ("{"%char :: text ++ "}"%char :: rest))
      with (match skip_ws (text ++ "}"%char :: rest) with
            | "}"%char :: rest => Some (VObj ∅, rest)
            | _ =>
                match parse_members fuel (text ++ "}"%char :: rest) with
                | Some (l, rest) => Some (VObj (object_of l), rest)
                | None => None
                end
            end).
    assert (skip_ws (text ++ "}"%char :: rest) = text ++ "}"%char :: rest) as ->.
    { by rewrite Htext. }
    assert (parse_members fuel (text ++ "}"%char :: rest) = Some (members, rest)) as Hparse.
    { unfold text. apply parse_members_chars; [done| |].
      - intros [k' x'] Hkx. cbn [snd].
        assert (m !! k' = Some x') as Hlook by (apply elem_of_map_to_list; by rewrite Hlist).
        eapply IH; [|reflexivity|].
        + by eapply value_size_lookup.
        + by eapply (proj1 (representable_obj _) Hv).
      - cbn [List.length] in Hfuel. rewrite length_app in Hfuel.
        cbn [List.length] in Hfuel. fold text. lia. }
    rewrite Htext in *. cbn [app]. cbn [app] in Hparse. rewrite Hparse.
    do 3 f_equal. subst members. rewrite <- Hlist. apply object_of_map_to_list.
Qed.

Theorem parse_stringify v :
  representable v = true → parse (stringify v) = Some v.
Proof.
  intros Hv. unfold parse, stringify. rewrite chars_of_list.
  rewrite <- (List.app_nil_r (stringify_chars v)) at 2.
  rewrite (round_trips_all v Hv); [done|lia|done].
Qed.

(** *** What comes back for a value that JSON does not represent *)

Lemma members_written (l : list (string * value)) :
  foldr (uncurry (λ (k : string) (x : value) (acc : list (list ascii)),
           match x with
           | VUndefined => acc
           | _ => (string_chars k ++ ":"%char :: stringify_chars x) :: acc
           end)) [] l
  = member_chars <$> List.filter (λ kx, negb (bool_decide (kx.2 = VUndefined))) l.
Proof.
  induction l as [|[k x] l IH]; [done|].
  cbn [foldr uncurry List.filter fst snd]. rewrite IH.
  by destruct x.
Qed.

Lemma stringify_chars_members (m : gmap string value) :
  stringify_chars (VObj m) =
    "{"%char ::
      join_comma (member_chars <$> List.filter (λ kx, negb (bool_decide (kx.2 = VUndefined)))
                                     (map_to_list m))
      ++ ["}"%char].
Proof.
  cbn [stringify_chars]. do 3 f_equal. rewrite map_fold_foldr. apply members_written.
Qed.

Lemma parse_elements_reads l rest fuel :
  l ≠ [] → (∀ v, v ∈ l → reads v) →
  (S (List.length (join_comma (stringify_chars <$> l))) ≤ fuel)%nat →
  parse_elements fuel (join_comma (stringify_chars <$> l) ++ "]"%char :: rest)
  = Some (reparsed <$> l, rest).
Proof.
  revert fuel. induction l as [|v l IH]; intros fuel Hne Hl Hfuel; [done|].
  destruct fuel as [|fuel]; [lia|]. rewrite parse_elements_S.
  destruct l as [|v' l'].
  - cbn [fmap list_fmap join_comma] in *.
    rewrite (Hl v); [done|left|lia|cbn; auto].
  - cbn [fmap list_fmap join_comma] in *. rewrite length_app in Hfuel.
    cbn [List.length] in Hfuel. rewrite <- app_assoc. cbn [app].
    rewrite (Hl v); [|left|lia|cbn; auto].
    cbn [skip_ws is_ws]. rewrite IH; [done|done| |lia].
    intros x Hx. apply Hl. by right.
Qed.

Lemma parse_members_reads l rest fuel :
  l ≠ [] → (∀ kx, kx ∈ l → reads kx.2) →
  (S (List.length (join_comma (member_chars <$> l))) ≤ fuel)%nat →
  parse_members fuel (join_comma (member_chars <$> l) ++ "}"%char :: rest)
  = Some ((λ kx, (kx.1, reparsed kx.2)) <$> l, rest).
Proof.
  revert fuel. induction l as [|[k v] l IH]; intros fuel Hne Hl Hfuel; [done|].
  destruct fuel as [|fuel]; [lia|].
  destruct l as [|kv' l'].
  - cbn [fmap list_fmap join_comma] in *. unfold member_chars, string_chars in *.
    cbn [fst snd] in *. rewrite <- !app_assoc. cbn [app].
    rewrite <- !app_assoc. cbn [app]. rewrite parse_members_S.
    rewrite !length_app in Hfuel. cbn [List.length] in Hfuel. rewrite !length_app in Hfuel.
    cbn [List.length] in Hfuel.
    rewrite (Hl (k, v)); [|left|cbn [snd]; lia|cbn; auto].
    cbn [skip_ws is_ws]. by rewrite string_of_chars.
  - cbn [fmap list_fmap join_comma] in *. unfold member_chars at 1, string_chars at 1.
    unfold member_chars at 1, string_chars at 1 in Hfuel.
    cbn [fst snd] in *. rewrite <- !app_assoc. cbn [app].
    rewrite <- !app_assoc. cbn [app]. rewrite parse_members_S.
    rewrite !length_app in Hfuel. cbn [List.length] in Hfuel. rewrite !length_app in Hfuel.
    cbn [List.length] in Hfuel.
    rewrite (Hl (k, v)); [|left|cbn [snd]; lia|cbn; auto].
    cbn [skip_ws is_ws]. rewrite IH; [by rewrite string_of_chars|done| |lia].
    intros x Hx. apply Hl. by right.
Qed.

Lemma object_of_list_to_map (l : list (string * value)) :
  NoDup l.*1 → object_of l = list_to_map l.
Proof.
  induction l as [|[k x] l IH] using rev_ind; intros Hnd; [done|].
  rewrite object_of_snoc. rewrite fmap_app in Hnd.
  pose proof Hnd as Hnd'. apply NoDup_app in Hnd' as (Hl & Hk & _).
  rewrite IH by done. apply map_eq. intros j.
  rewrite lookup_insert. case_decide as Hj.
  - subst j. symmetry. apply elem_of_list_to_map.
    + by rewrite fmap_app.
    + apply elem_of_app. right. by left.
  - destruct (list_to_map l !! j) as [y|] eqn:Hy.
    + symmetry. apply elem_of_list_to_map.
      * by rewrite fmap_app.
      * apply elem_of_app. left. by apply elem_of_list_to_map in Hy.
    + symmetry. apply not_elem_of_list_to_map. rewrite fmap_app.
      apply not_elem_of_list_to_map in Hy. intros Hin.
      apply elem_of_app in Hin as [Hin|Hin]; [done|].
      apply list_elem_of_singleton in Hin. by apply Hj.
Qed.

Lemma NoDup_fst_filter (P : string * value → bool) (l : list (string * value)) :
  NoDup l.*1 → NoDup (List.filter P l).*1.
Proof.
  induction l as [|kx l IH]; intros Hnd; [done|].
  cbn [fmap list_fmap] in Hnd. apply NoDup_cons in Hnd as [Hk Hl].
  cbn [List.filter]. destruct (P kx); [|by apply IH].
  cbn [fmap list_fmap]. apply NoDup_cons. split; [|by apply IH].
  intros Hin. apply Hk. apply list_elem_of_fmap in Hin as [kx' [-> Hin]].
  apply list_elem_of_fmap. exists kx'. split; [done|].
  apply list_elem_of_In, filter_In in Hin as [Hin _]. by apply list_elem_of_In.
Qed.

(** The object read back from the members [stringify] writes for [m]. *)
Lemma object_of_written (m : gmap string value) :
  object_of ((λ kx, (kx.1, reparsed kx.2))
               <$> List.filter (λ kx, negb (bool_decide (kx.2 = VUndefined))) (map_to_list m))
  = omap (λ x, match x with VUndefined => None | _ => Some (reparsed x) end) m.
Proof.
  set (written := List.filter _ (map_to_list m)).
  assert (NoDup written.*1) as Hnd by apply NoDup_fst_filter, NoDup_fst_map_to_list.
  assert (((λ kx : string * value, (kx.1, reparsed kx.2)) <$> written).*1 = written.*1) as Hfst.
  { rewrite <- list_fmap_compose. by apply list_fmap_ext. }
  rewrite object_of_list_to_map by (by rewrite Hfst).
  apply map_eq. intros j. rewrite lookup_omap.
  assert (∀ x, (j, x) ∈ written ↔ m !! j = Some x ∧ x ≠ VUndefined) as Hin.
  { intros x. unfold written. rewrite list_elem_of_In, filter_In, <- list_elem_of_In.
    rewrite elem_of_map_to_list. cbn [snd]. rewrite negb_true_iff, bool_decide_eq_false. done. }
  destruct (m !! j) as [x|] eqn:Hj.
  - destruct (decide (x = VUndefined)) as [->|Hx].
    + cbn. apply not_elem_of_list_to_map. rewrite Hfst.
      intros Hk. apply list_elem_of_fmap in Hk as [[k y] [Hk Hy]]. cbn in Hk. subst k.
      apply Hin in Hy as [Hy Hdef]. congruence.
    + transitivity (Some (reparsed x)); [|by destruct x].
      apply elem_of_list_to_map; [by rewrite Hfst|].
      apply list_elem_of_fmap. exists (j, x). split; [done|]. by apply Hin.
  - cbn. apply not_elem_of_list_to_map. rewrite Hfst.
    intros Hk. apply list_elem_of_fmap in Hk as [[k y] [Hk Hy]]. cbn in Hk. subst k.
    apply Hin in Hy as [Hy _]. congruence.
Qed.

Lemma reads_all v : reads v.
Proof.
  remember (value_size v) as n eqn:Hn. revert v Hn.
  induction n as [n IH] using lt_wf_ind. intros v -> fuel rest Hfuel Hrest.
  destruct v as [| |b|n|s|l|m].
  - destruct fuel as [|fuel]; [cbn in Hfuel; lia|]. reflexivity.
  - destruct fuel as [|fuel]; [cbn in Hfuel; lia|]. reflexivity.
  - destruct fuel as [|fuel]; [destruct b; cbn in Hfuel; lia|]. by destruct b.
  - destruct fuel as [|fuel]; [pose proof (stringify_chars_length (VNum n)); lia|].
    cbn [stringify_chars reparsed]. destruct (number_chars_head n) as (c & t & Hc & Hhead).
    pose proof (parse_number_chars n rest Hrest) as Hparse.
    rewrite Hc in *. cbn [app] in *. rewrite parse_value_number by done.
    by rewrite Hparse.
  - destruct fuel as [|fuel]; [cbn in Hfuel; lia|].
    cbn [stringify_chars reparsed]. unfold string_chars. cbn [app]. rewrite <- app_assoc. cbn [app].
    change (parse_value (S fuel) (dquote :: flat_map escape (chars s) ++ dquote :: rest))
      with (match parse_string (flat_map escape (chars s) ++ dquote :: rest) with
            | Some (str, rest) => Some (VStr (string_of_list_ascii str), rest)
            | None => None
            end).
    by rewrite parse_string_chars, string_of_chars.
  - destruct fuel as [|fuel]; [cbn in Hfuel; lia|].
    cbn [stringify_chars reparsed] in *. cbn [app]. rewrite <- app_assoc. cbn [app].
    destruct l as [|v l]; [reflexivity|].
    set (text := join_comma (stringify_chars <$> v :: l)) in *.
    assert (∃ c t, text = c :: t ∧ is_ws c = false ∧ c ≠ "]"%char) as (c & t & Htext & Hws & Hc).
    { destruct (stringify_chars_head v) as (c & t & Hv' & Hc). unfold text.
      cbn [fmap list_fmap join_comma]. rewrite Hv'.
      destruct l; [by eauto|]. cbn [app]. by eauto. }
    rewrite Htext. cbn [app]. rewrite parse_value_array by done.
    change (c :: t ++ "]"%char :: rest) with ((c :: t) ++ "]"%char :: rest).
    rewrite <- Htext.
    unfold text. rewrite parse_elements_reads; [done|done| |].
    + intros x Hx. eapply IH; [|reflexivity].
      by apply value_size_elem.
    + cbn [List.length] in Hfuel. rewrite length_app in Hfuel.
      cbn [List.length] in Hfuel. fold text. lia.
  - destruct fuel as [|fuel]; [cbn in Hfuel; lia|].
    rewrite stringify_chars_members in *. cbn [reparsed app]. rewrite <- app_assoc. cbn [app].
    rewrite <- object_of_written.
    destruct (List.filter _ (map_to_list m)) as [|[k x] l] eqn:Hlist; [reflexivity|].
    set (members := (k, x) :: l) in *.
    set (text := join_comma (member_chars <$> members)) in *.
    assert (∃ t, text = dquote :: t) as [t Htext].
    { unfold text, members. cbn [fmap list_fmap join_comma].
      unfold member_chars at 1, string_chars. cbn [fst snd app].
      destruct l; cbn [app]; by eauto. }
    change (parse_value (S fuel) ("{"%char :: text ++ "}"%char :: rest))
      with (match skip_ws (text ++ "}"%char :: rest) with
            | "}"%char :: rest => Some (VObj ∅, rest)
            | _ =>
                match parse_members fuel (text ++ "}"%char :: rest) with
                | Some (l, rest) => Some (VObj (object_of l), rest)
                | None => None
                end
            end).
    assert (skip_ws (text ++ "}"%char :: rest) = text ++ "}"%char :: rest) as ->.
    { by rewrite Htext. }
    assert (parse_members fuel (text ++ "}"%char :: rest)
            = Some ((λ kx, (kx.1, reparsed kx.2)) <$> members, rest)) as Hparse.
    { unfold text. apply parse_members_reads; [done| |].
      - intros [k' x'] Hkx. cbn [snd].
        assert (m !! k' = Some x') as Hlook.
        { apply elem_of_map_to_list. fold members in Hkx. rewrite <- Hlist in Hkx.
          apply list_elem_of_In, filter_In in Hkx as [Hkx _]. by apply list_elem_of_In. }
        eapply IH; [|reflexivity]. by eapply value_size_lookup.
      - cbn [List.length] in Hfuel. rewrite length_app in Hfuel.
        cbn [List.length] in Hfuel. fold text. lia. }
    rewrite Htext in *. cbn [app]. cbn [app] in Hparse. by rewrite Hparse.
Qed.

(** [JSON.parse(JSON.stringify(v))] for every value. *)
Theorem parse_stringify_any v : parse (stringify v) = Some (reparsed v).
Proof.
  unfold parse, stringify. rewrite chars_of_list.
  rewrite <- (List.app_nil_r (stringify_chars v)) at 2.
  rewrite (reads_all v); [done|lia|done].
Qed.

End JsonFacts.

(** ** The in-memory store *)

Module InMemoryFacts.
Import InMemory.

Lemma getNode_app m p q :
  getNode m (p ++ q) =
    match getNode m p with
    | Some (NMap n) => getNode n q
    | Some (NEntry e) => match q with [] => Some (NEntry e) | _ :: _ => None end
    | None => None
    end.
Proof.
  revert m. induction p as [|part rest IH]; intros m; simpl; [done|].
  destruct (m !! part) as [[child|e]|] eqn:Hpart; [apply IH| |done].
  destruct rest; simpl; [done|]. by destruct q.
Qed.

Lemma getNode_singleton m part :
  getNode m [part] = m !! part.
Proof. simpl. by destruct (m !! part) as [[]|]. Qed.

Lemma slot_eq m key :
  slot m key = match getNode m key with Some (NMap n) => n !! marker | _ => None end.
Proof.
  unfold slot. rewrite getNode_app.
  destruct (getNode m key) as [[n|e]|]; [apply getNode_singleton|done..].
Qed.

Lemma get_slot now key c :
  get now key c =
    match slot (store c) key with
    | None => miss
    | Some (NEntry entry) => {| r_data := e_data entry; r_stale := isStale now entry |}
    | Some (NMap _) => {| r_data := VUndefined; r_stale := false |}
    end.
Proof.
  unfold get. rewrite slot_eq.
  by destruct (getNode (store c) key) as [[n|e]|].
Qed.

(** *** Mutation through the node at a path *)

Lemma mutateNode_at f m p n q :
  getNode m p = Some (NMap n) →
  getNode (mutateNode f m p) (p ++ q) = getNode (f n) q.
Proof.
  revert m. induction p as [|part rest IH]; intros m; simpl.
  - by intros [= ->].
  - destruct (m !! part) as [[child|e]|] eqn:Hpart.
    + intros Hn. rewrite lookup_insert_eq. by apply IH.
    + by destruct rest.
    + done.
Qed.

Lemma mutateNode_none f m p :
  (∀ n, getNode m p ≠ Some (NMap n)) → mutateNode f m p = m.
Proof.
  revert m. induction p as [|part rest IH]; intros m; simpl.
  - intros H. by destruct (H m).
  - destruct (m !! part) as [[child|e]|] eqn:Hpart; [|done..].
    intros H. rewrite (IH child H). by apply insert_id.
Qed.

(** A change [f] of the property [a] of the node at [p] is seen only
    along [p] and below [p ++ [a]]. *)
Lemma mutateNode_frame f a m p q :
  (∀ n b, b ≠ a → f n !! b = n !! b) →
  ¬ q `prefix_of` p → ¬ (p ++ [a]) `prefix_of` q →
  getNode (mutateNode f m p) q = getNode m q.
Proof.
  intros Hf. revert m q. induction p as [|part rest IH]; intros m q Hq Hp; simpl.
  - destruct q as [|b q']; [destruct Hq; apply prefix_nil|].
    simpl. rewrite Hf; [done|].
    intros ->. apply Hp. by apply prefix_cons, prefix_nil.
  - destruct (m !! part) as [[child|e]|] eqn:Hpart; [|done..].
    destruct q as [|b q']; [destruct Hq; apply prefix_nil|].
    simpl. destruct (decide (b = part)) as [->|Hne].
    + rewrite lookup_insert_eq, Hpart. apply IH.
      * intros H. apply Hq. by apply prefix_cons.
      * intros H. apply Hp. simpl. by apply prefix_cons.
    + by rewrite lookup_insert_ne.
Qed.

(** *** [getOrCreateNode] *)

Lemma getOrCreateNode_frame m key q :
  ¬ q `prefix_of` key →
  getNode (getOrCreateNode m key).1 q = getNode m q.
Proof.
  revert m q. induction key as [|part rest IH]; intros m q Hq; simpl; [done|].
  destruct q as [|b q']; [destruct Hq; apply prefix_nil|].
  destruct (m !! part) as [[child|e]|] eqn:Hpart; simpl.
  - destruct (getOrCreateNode child rest) as [child' r] eqn:Hrec. simpl.
    destruct (decide (b = part)) as [->|Hne].
    + rewrite lookup_insert_eq, Hpart.
      replace child' with (getOrCreateNode child rest).1 by by rewrite Hrec.
      apply IH. intros H. apply Hq. by apply prefix_cons.
    + by rewrite lookup_insert_ne.
  - by destruct rest.
  - destruct (getOrCreateNode ∅ rest) as [child' r] eqn:Hrec. simpl.
    destruct (decide (b = part)) as [->|Hne].
    + rewrite lookup_insert_eq, Hpart.
      replace child' with (getOrCreateNode ∅ rest).1 by by rewrite Hrec.
      rewrite IH; [|intros H; apply Hq; by apply prefix_cons].
      destruct q'; simpl; [|done].
      destruct Hq. apply prefix_cons, prefix_nil.
    + by rewrite lookup_insert_ne.
Qed.


Lemma mutateNode_above f m q r :
  getNode (mutateNode f m (q ++ r)) q =
    match getNode m q with
    | Some (NMap n) => Some (NMap (mutateNode f n r))
    | o => o
    end.
Proof.
  revert m. induction q as [|part rest IH]; intros m; simpl; [done|].
  destruct (m !! part) as [[child|e]|] eqn:Hpart.
  - rewrite lookup_insert_eq. apply IH.
  - rewrite Hpart. by destruct rest.
  - by rewrite Hpart.
Qed.

Lemma mutateNode_delete_below a m p r :
  getNode (mutateNode (delete a) m p) (p ++ a :: r) = None.
Proof.
  destruct (getNode m p) as [[n|e]|] eqn:Hp.
  - rewrite (mutateNode_at _ _ _ _ _ Hp). simpl. by rewrite lookup_delete_eq.
  - rewrite mutateNode_none by (intros n; congruence).
    by rewrite getNode_app, Hp.
  - rewrite mutateNode_none by (intros n; congruence).
    by rewrite getNode_app, Hp.
Qed.

(** *** Paths that end in the marker *)

Lemma marker_path_not_prefix (k1 k2 : CacheKey) :
  marker ∉ k1 → ¬ (k2 ++ [marker]) `prefix_of` k1.
Proof.
  intros Hm [r Hr]. apply Hm. rewrite Hr. set_solver.
Qed.

Lemma marker_path_prefix_inv (k1 k2 : CacheKey) :
  (k1 ++ [marker]) `prefix_of` (k2 ++ [marker]) → k1 = k2 ∨ marker ∈ k2.
Proof.
  intros [r Hr]. destruct r as [|x r _] using rev_ind.
  - rewrite List.app_nil_r in Hr. apply app_inj_tail in Hr as [-> _]. by left.
  - right. rewrite !app_assoc in Hr. apply app_inj_tail in Hr as [-> _]. set_solver.
Qed.

Lemma key_snoc (key : CacheKey) lastKey :
  last key = Some lastKey → key = removelast key ++ [lastKey].
Proof.
  intros H. destruct key as [|x key _] using rev_ind; [done|].
  rewrite last_snoc in H. injection H as ->. by rewrite removelast_last.
Qed.

(** *** Stores the methods build *)

Lemma wf_map_empty : wf_map ∅.
Proof. constructor; intros k x; by rewrite lookup_empty. Qed.

Lemma wf_map_insert_map m k child :
  wf_map m → wf_map child → wf_map (<[k := NMap child]> m).
Proof.
  intros Hm Hc. destruct Hm as [m He Hn]. constructor; intros j x.
  - rewrite lookup_insert. case_decide; [done|]. apply He.
  - rewrite lookup_insert. case_decide; [by intros [= <-]|]. apply Hn.
Qed.

Lemma wf_map_insert_entry m e :
  wf_map m → wf_map (<[marker := NEntry e]> m).
Proof.
  intros Hm. destruct Hm as [m He Hn]. constructor; intros j x.
  - rewrite lookup_insert. case_decide; [done|]. apply He.
  - rewrite lookup_insert. case_decide; [done|]. apply Hn.
Qed.

Lemma wf_map_delete m k :
  wf_map m → wf_map (delete k m).
Proof.
  intros Hm. destruct Hm as [m He Hn]. constructor; intros j x.
  - rewrite lookup_delete. case_decide; [done|]. apply He.
  - rewrite lookup_delete. case_decide; [done|]. apply Hn.
Qed.

Lemma wf_map_child m k child :
  wf_map m → m !! k = Some (NMap child) → wf_map child.
Proof. intros [? _ Hn]. apply Hn. Qed.

Lemma wf_map_entry m k e :
  wf_map m → m !! k = Some (NEntry e) → k = marker.
Proof. intros [? He _]. apply He. Qed.

Lemma getOrCreateNode_wf m key :
  wf_map m → wf_map (getOrCreateNode m key).1.
Proof.
  revert m. induction key as [|part rest IH]; intros m Hm; simpl; [done|].
  destruct (m !! part) as [[child|e]|] eqn:Hpart; simpl.
  - destruct (getOrCreateNode child rest) as [child' r] eqn:Hrec. simpl.
    apply wf_map_insert_map; [done|].
    replace child' with (getOrCreateNode child rest).1 by by rewrite Hrec.
    apply IH. by eapply wf_map_child.
  - by destruct rest.
  - destruct (getOrCreateNode ∅ rest) as [child' r] eqn:Hrec. simpl.
    apply wf_map_insert_map; [done|].
    replace child' with (getOrCreateNode ∅ rest).1 by by rewrite Hrec.
    apply IH, wf_map_empty.
Qed.

Lemma mutateNode_wf f m p :
  (∀ n, wf_map n → wf_map (f n)) → wf_map m → wf_map (mutateNode f m p).
Proof.
  intros Hf. revert m. induction p as [|part rest IH]; intros m Hm; simpl; [by apply Hf|].
  destruct (m !! part) as [[child|e]|] eqn:Hpart; [|done..].
  apply wf_map_insert_map; [done|]. apply IH. by eapply wf_map_child.
Qed.

(** On a well-formed store a key without the marker leads through maps
    only: [getOrCreateNode] completes and returns a [Map]. *)
Lemma getOrCreateNode_ok m key :
  wf_map m → marker ∉ key →
  (getOrCreateNode m key).2 = Ok () ∧
  ∃ n, getNode (getOrCreateNode m key).1 key = Some (NMap n).
Proof.
  revert m. induction key as [|part rest IH]; intros m Hm Hk; simpl; [eauto|].
  apply not_elem_of_cons in Hk as [Hpart Hrest].
  destruct (m !! part) as [[child|e]|] eqn:Hlook; simpl.
  - destruct (IH child) as [Hr [n Hn]]; [by eapply wf_map_child|done|].
    destruct (getOrCreateNode child rest) as [child' r]. simpl in *.
    rewrite lookup_insert_eq. eauto.
  - destruct Hpart. symmetry. by eapply wf_map_entry.
  - destruct (IH ∅) as [Hr [n Hn]]; [apply wf_map_empty|done|].
    destruct (getOrCreateNode ∅ rest) as [child' r]. simpl in *.
    rewrite lookup_insert_eq. eauto.
Qed.

Lemma cleanUpValue_map t child :
  cleanUpValue t (NMap child) = Some (NMap (cleanUpNode child t)).
Proof. reflexivity. Qed.

Lemma cleanUpValue_entry t e :
  cleanUpValue t (NEntry e) = if isExpired t e then None else Some (NEntry e).
Proof. reflexivity. Qed.

Lemma lookup_cleanUpNode t m k :
  cleanUpNode m t !! k =
    match m !! k with
    | Some (NMap child) => Some (NMap (cleanUpNode child t))
    | Some (NEntry e) => if isExpired t e then None else Some (NEntry e)
    | None => None
    end.
Proof.
  unfold cleanUpNode at 1. rewrite lookup_omap.
  by destruct (m !! k) as [[child|e]|].
Qed.

Lemma cleanUpNode_wf t m :
  wf_map m → wf_map (cleanUpNode m t).
Proof.
  induction 1 as [m He Hn IH]. constructor; intros k x.
  - rewrite lookup_cleanUpNode. destruct (m !! k) as [[child|e]|] eqn:Hk.
    + discriminate.
    + destruct (isExpired t e); [discriminate|]. intros _. by eapply He.
    + discriminate.
  - rewrite lookup_cleanUpNode. destruct (m !! k) as [[child|e]|] eqn:Hk.
    + intros Hx. injection Hx as <-. by eapply IH.
    + destruct (isExpired t e); discriminate.
    + discriminate.
Qed.

(** *** [cleanUpNode] *)

Lemma getNode_cleanUpNode t m q :
  getNode (cleanUpNode m t) q = getNode m q ≫= cleanUpValue t.
Proof.
  revert m. induction q as [|part rest IH]; intros m; [done|].
  cbn [getNode]. rewrite lookup_cleanUpNode.
  destruct (m !! part) as [[child|e]|] eqn:Hpart; [apply IH| |done].
  destruct (isExpired t e) eqn:He.
  - destruct rest; [|done]. cbn. by rewrite He.
  - destruct rest; [|done]. cbn. by rewrite He.
Qed.


(** *** The methods *)

Section Methods.
Context {C : Constants}.

Lemma set_empty_key now p c :
  key p = [] → set now p c = (c, Ok ()).
Proof. unfold set. by intros ->. Qed.

Lemma with_store_id c : with_store c (store c) = c.
Proof. by destruct c. Qed.

Lemma slot_set_other now p c k2 :
  key p ≠ k2 → marker ∉ key p → marker ∉ k2 →
  slot (store (set now p c).1) k2 = slot (store c) k2.
Proof.
  intros Hne Hk1 Hk2. unfold set.
  destruct (key p) as [|part rest] eqn:Hkey; [done|].
  pose proof (getOrCreateNode_frame (store c) (part :: rest) (k2 ++ [marker])
                (marker_path_not_prefix _ _ Hk1)) as Hcreated.
  destruct (getOrCreateNode (store c) (part :: rest)) as [created r].
  simpl in Hcreated. destruct r as [[]|e]; [|done].
  destruct (getNode created (part :: rest)) as [[n|e]|] eqn:Hnode; [|done..].
  unfold slot. cbn [fst store with_store].
  rewrite (mutateNode_frame _ marker); [done| | |].
  - intros m b Hb. by rewrite lookup_insert_ne.
  - by apply marker_path_not_prefix.
  - intros H. apply marker_path_prefix_inv in H as [H|H]; [by apply Hne|done].
Qed.

Lemma set_ok now p c :
  wf c → marker ∉ key p →
  (set now p c).2 = Ok () ∧
  (key p ≠ [] → slot (store (set now p c).1) (key p) = Some (NEntry (newEntry now (options c) p))).
Proof.
  intros Hwf Hk. unfold set.
  destruct (key p) as [|part rest] eqn:Hkey; [done|].
  destruct (getOrCreateNode_ok (store c) (part :: rest) Hwf Hk) as [Hr [n Hn]].
  destruct (getOrCreateNode (store c) (part :: rest)) as [created r].
  cbn [fst snd] in Hr, Hn. subst r. rewrite Hn. split; [done|]. intros _.
  unfold slot. cbn [fst store with_store].
  rewrite (mutateNode_at _ _ _ _ _ Hn). cbn [getNode].
  by rewrite lookup_insert_eq.
Qed.

(** Whenever [set] returns normally, the entry is in place. *)
Lemma slot_set_same now p c :
  key p ≠ [] → (set now p c).2 = Ok () →
  slot (store (set now p c).1) (key p) = Some (NEntry (newEntry now (options c) p)).
Proof.
  intros Hkey. unfold set.
  destruct (key p) as [|part rest] eqn:Hk; [done|].
  destruct (getOrCreateNode (store c) (part :: rest)) as [created [[]|e]]; [|done].
  destruct (getNode created (part :: rest)) as [[n|e]|] eqn:Hn; [|done..].
  intros _. unfold slot. cbn [fst store with_store].
  rewrite (mutateNode_at _ _ _ _ _ Hn). cbn [getNode].
  by rewrite lookup_insert_eq.
Qed.

Lemma set_wf now p c : wf c → wf (set now p c).1.
Proof.
  intros Hwf. unfold set, wf.
  destruct (key p) as [|part rest] eqn:Hkey; [done|].
  pose proof (getOrCreateNode_wf (store c) (part :: rest) Hwf) as Hcreated.
  destruct (getOrCreateNode (store c) (part :: rest)) as [created r].
  simpl in Hcreated. destruct r as [[]|e]; [|done].
  destruct (getNode created (part :: rest)) as [[n|e]|]; [|done..].
  cbn [fst store with_store]. apply mutateNode_wf; [|done].
  intros m. apply wf_map_insert_entry.
Qed.

End Methods.

Lemma create_wf o : wf (create o).
Proof. apply wf_map_empty. Qed.

Lemma invalidate_wf key c : wf c → wf (invalidate key c).
Proof.
  intros Hwf. unfold invalidate, wf. destruct (last key); [|done].
  cbn [store with_store]. apply mutateNode_wf; [|done].
  intros m. apply wf_map_delete.
Qed.

Lemma cleanUp_wf now c : wf c → wf (cleanUp now c).
Proof. intros Hwf. by apply cleanUpNode_wf. Qed.

Lemma slot_invalidate_below key c k2 :
  key ≠ [] → key `prefix_of` k2 → slot (store (invalidate key c)) k2 = None.
Proof.
  intros Hne [r ->]. unfold invalidate.
  destruct (last key) as [lastKey|] eqn:Hlast.
  - cbn [store with_store]. unfold slot.
    rewrite (key_snoc _ _ Hlast) at 2. rewrite <- !app_assoc. cbn [app].
    apply mutateNode_delete_below.
  - by apply last_None in Hlast.
Qed.

(** Outside the subtree at [key] the slots keep their contents, except
    that a [Map] stored under the marker may lose entries below it. *)
Lemma slot_invalidate_other key c k2 :
  ¬ key `prefix_of` k2 → key ≠ k2 ++ [marker] →
  match slot (store c) k2 with
  | Some (NMap _) => ∃ n, slot (store (invalidate key c)) k2 = Some (NMap n)
  | o => slot (store (invalidate key c)) k2 = o
  end.
Proof.
  intros Hpre Hne. unfold invalidate.
  destruct (last key) as [lastKey|] eqn:Hlast;
    [|destruct (slot (store c) k2) as [[]|]; eauto].
  cbn [store with_store]. unfold slot.
  pose proof (key_snoc _ _ Hlast) as Hkey.
  destruct (decide ((k2 ++ [marker]) `prefix_of` removelast key)) as [[r Hr]|Hnot].
  - rewrite Hr, mutateNode_above.
    destruct (getNode (store c) (k2 ++ [marker])) as [[n|e]|]; eauto.
  - rewrite (mutateNode_frame _ lastKey); [by destruct (getNode _ _) as [[]|]; eauto| |done|].
    + intros m b Hb. by rewrite lookup_delete_ne.
    + rewrite <- Hkey. intros [r Hr].
      destruct r as [|x r _] using rev_ind.
      * rewrite List.app_nil_r in Hr. by apply Hne.
      * rewrite app_assoc in Hr. apply app_inj_tail in Hr as [-> _].
        apply Hpre. by exists r.
Qed.

Lemma get_invalidate_below now key c k2 :
  key ≠ [] → key `prefix_of` k2 → get now k2 (invalidate key c) = miss.
Proof.
  intros Hne Hpre. by rewrite get_slot, slot_invalidate_below.
Qed.

Lemma get_invalidate_other now key c k2 :
  ¬ key `prefix_of` k2 → key ≠ k2 ++ [marker] →
  get now k2 (invalidate key c) = get now k2 c.
Proof.
  intros Hpre Hne. rewrite !get_slot.
  pose proof (slot_invalidate_other key c k2 Hpre Hne) as H.
  destruct (slot (store c) k2) as [[n|e]|]; [destruct H as [n' ->]|rewrite H..]; done.
Qed.

Lemma slot_cleanUp now c key :
  slot (store (cleanUp now c)) key = slot (store c) key ≫= cleanUpValue now.
Proof. apply getNode_cleanUpNode. Qed.

Lemma entryAt_cleanUp now c key :
  entryAt (cleanUp now c) key =
    match entryAt c key with
    | Some e => if isExpired now e then None else Some e
    | None => None
    end.
Proof.
  unfold entryAt. rewrite slot_cleanUp.
  destruct (slot (store c) key) as [[n|e]|]; [done| |done].
  change (Some (NEntry e) ≫= cleanUpValue now) with (cleanUpValue now (NEntry e)).
  rewrite cleanUpValue_entry. by destruct (isExpired now e).
Qed.

Lemma get_cleanUp now now' c key :
  get now' key (cleanUp now c) =
    match entryAt c key with
    | Some e => if isExpired now e then miss else get now' key c
    | None => get now' key c
    end.
Proof.
  rewrite !get_slot, slot_cleanUp. unfold entryAt.
  destruct (slot (store c) key) as [[n|e]|]; [done| |done].
  change (Some (NEntry e) ≫= cleanUpValue now) with (cleanUpValue now (NEntry e)).
  rewrite cleanUpValue_entry. by destruct (isExpired now e).
Qed.

(** *** What a failing [set] leaves behind *)

Lemma getOrCreateNode_fresh key :
  (getOrCreateNode ∅ key).2 = Ok () ∧
  ∃ n, getNode (getOrCreateNode ∅ key).1 key = Some (NMap n).
Proof.
  induction key as [|part rest [Hr [n Hn]]]; cbn [getOrCreateNode]; [by eauto|].
  rewrite lookup_empty. cbn [default from_option id].
  destruct (getOrCreateNode ∅ rest) as [child' r]. cbn [fst snd getNode] in *.
  rewrite lookup_insert_eq. eauto.
Qed.

(** [getOrCreateNode] throws, or ends on an entry, only along a path that
    was there already: nothing has been created then. *)
Lemma getOrCreateNode_result m key :
  match (getOrCreateNode m key).2 with
  | Ok _ =>
      (∃ n, getNode (getOrCreateNode m key).1 key = Some (NMap n)) ∨
      ((∃ e, getNode (getOrCreateNode m key).1 key = Some (NEntry e)) ∧
       (getOrCreateNode m key).1 = m)
  | Throw _ => (getOrCreateNode m key).1 = m
  end.
Proof.
  revert m. induction key as [|part rest IH]; intros m; cbn [getOrCreateNode].
  - left. by eexists.
  - destruct (m !! part) as [[child|e]|] eqn:Hpart; cbn [default from_option id].
    + specialize (IH child).
      destruct (getOrCreateNode child rest) as [child' r]. cbn [fst snd] in *.
      cbn [getNode]. rewrite lookup_insert_eq.
      destruct r as [[]|e].
      * destruct IH as [Hn|[He ->]]; [by left|]. right. split; [done|by apply insert_id].
      * rewrite IH. by apply insert_id.
    + destruct rest; cbn [fst snd getNode]; [|done].
      right. rewrite Hpart. split; [by eexists|done].
    + destruct (getOrCreateNode_fresh rest) as [Hr Hn].
      destruct (getOrCreateNode ∅ rest) as [child' r]. cbn [fst snd] in *. subst r.
      cbn [getNode]. rewrite lookup_insert_eq. by left.
Qed.

Section Failing.
Context {C : Constants}.

Lemma set_throws_unchanged now p c e :
  (set now p c).2 = Throw e → (set now p c).1 = c.
Proof.
  unfold set. destruct (key p) as [|part rest] eqn:Hk; [done|].
  pose proof (getOrCreateNode_result (store c) (part :: rest)) as Hres.
  destruct (getOrCreateNode (store c) (part :: rest)) as [created r].
  cbn [fst snd] in Hres. destruct r as [[]|e'].
  - destruct Hres as [[n Hn]|[[e' He] ->]].
    + by rewrite Hn.
    + rewrite He. intros _. apply with_store_id.
  - subst created. intros _. apply with_store_id.
Qed.

End Failing.

(** *** The empty store, and the marker as a last segment *)

Lemma getNode_empty key :
  key ≠ [] → getNode ∅ key = None.
Proof. destruct key; [done|]. intros _. cbn [getNode]. by rewrite lookup_empty. Qed.

Lemma get_create now key o : get now key (create o) = miss.
Proof.
  rewrite get_slot. unfold slot, create. cbn [store].
  rewrite getNode_empty; [done|]. by destruct key.
Qed.

Lemma get_invalidate_marker now key c :
  get now key (invalidate (key ++ [marker]) c) = miss.
Proof.
  rewrite get_slot. unfold invalidate. rewrite last_snoc. cbn [store with_store].
  rewrite removelast_last. unfold slot.
  by rewrite (mutateNode_delete_below marker (store c) key []).
Qed.

Lemma get_cleanUp_twice now t key c :
  get t key (cleanUp now (cleanUp now c)) = get t key (cleanUp now c).
Proof.
  rewrite (get_cleanUp now t (cleanUp now c)), entryAt_cleanUp.
  destruct (entryAt c key) as [e|]; [|done].
  destruct (isExpired now e) eqn:He; [done|]. by rewrite He.
Qed.

End InMemoryFacts.

(** ** The persisted store *)

Module MMKVFacts.
Import MMKV JsonFacts.

Lemma entry_value_representable e :
  Json.representable (e_data e) = true → Json.representable (entry_value e) = true.
Proof.
  intros He. apply representable_obj. intros k x. unfold entry_value.
  rewrite !lookup_insert. repeat case_decide; try (by intros [= <-]);
    by rewrite lookup_empty.
Qed.

Lemma parse_record e :
  Json.representable (e_data e) = true →
  Json.parse (record_of e) = Some (entry_value e).
Proof. intros He. by apply parse_stringify, entry_value_representable. Qed.

Lemma record_not_empty e : String.eqb (record_of e) "" = false.
Proof. reflexivity. Qed.

Lemma entry_value_data e : getProp (entry_value e) "data" = Ok (e_data e).
Proof. unfold getProp, entry_value. by rewrite lookup_insert_eq. Qed.

Lemma entry_value_timestamp e : getProp (entry_value e) "timestamp" = Ok (VNum (e_timestamp e)).
Proof.
  unfold getProp, entry_value.
  rewrite lookup_insert_ne by done. by rewrite lookup_insert_eq.
Qed.

Lemma entry_value_staleTime e : getProp (entry_value e) "staleTime" = Ok (VNum (e_staleTime e)).
Proof.
  unfold getProp, entry_value.
  do 2 rewrite lookup_insert_ne by done. by rewrite lookup_insert_eq.
Qed.

Lemma entry_value_cacheTime e : getProp (entry_value e) "cacheTime" = Ok (VNum (e_cacheTime e)).
Proof.
  unfold getProp, entry_value.
  do 3 rewrite lookup_insert_ne by done. by rewrite lookup_insert_eq.
Qed.

Lemma isStale_entry now e :
  isStale now (entry_value e) = Ok (bool_decide (e_staleTime e < now - e_timestamp e)).
Proof. unfold isStale. by rewrite entry_value_timestamp, entry_value_staleTime. Qed.

Lemma isExpired_entry now e :
  isExpired now (entry_value e) = Ok (bool_decide (e_cacheTime e < now - e_timestamp e)).
Proof. unfold isExpired. by rewrite entry_value_timestamp, entry_value_cacheTime. Qed.

Lemma expired_record_entry now e :
  Json.representable (e_data e) = true →
  expired_record now (record_of e) = bool_decide (e_cacheTime e < now - e_timestamp e).
Proof.
  intros He. unfold expired_record. by rewrite parse_record, isExpired_entry.
Qed.

Lemma get_miss now key c :
  mmkvInstance c !! keyToString key = None → get now key c = Ok miss.
Proof. unfold get. by intros ->. Qed.

Lemma get_holds now key c e :
  holds c key e →
  get now key c =
    Ok {| r_data := e_data e;
          r_stale := bool_decide (e_staleTime e < now - e_timestamp e) |}.
Proof.
  intros [Hlook He]. unfold get. rewrite Hlook, record_not_empty, parse_record by done.
  by rewrite isStale_entry, entry_value_data.
Qed.

Lemma get_unparsable now key c storedValue :
  mmkvInstance c !! keyToString key = Some storedValue →
  storedValue ≠ "" →
  Json.parse storedValue = None →
  get now key c = Throw SyntaxError.
Proof.
  intros Hlook Hne Hparse. unfold get. rewrite Hlook, Hparse.
  destruct (String.eqb storedValue "") eqn:Heq; [|done].
  by apply String.eqb_eq in Heq.
Qed.

Lemma lookup_foldl_delete (m : gmap string string) keys k :
  foldl (λ m k, delete k m) m keys !! k = if decide (k ∈ keys) then None else m !! k.
Proof.
  revert m. induction keys as [|x keys IH]; intros m; cbn [foldl].
  - by rewrite decide_False by apply not_elem_of_nil.
  - rewrite IH. destruct (decide (k ∈ keys)) as [Hin|Hnot].
    + rewrite decide_True by (by right). done.
    + destruct (decide (k = x)) as [->|Hne].
      * rewrite decide_True by left. apply lookup_delete_eq.
      * rewrite decide_False by (intros H; apply elem_of_cons in H as [|]; done).
        by apply lookup_delete_ne.
Qed.

Lemma elem_of_getAllKeys (m : gmap string string) k :
  k ∈ getAllKeys m ↔ is_Some (m !! k).
Proof.
  unfold getAllKeys. rewrite list_elem_of_fmap. split.
  - intros [[k' s] [-> H]]. apply elem_of_map_to_list in H. by eexists.
  - intros [s H]. exists (k, s). split; [done|]. by apply elem_of_map_to_list.
Qed.

(** What [invalidate] deletes: the key equal to the joined path, and the
    keys that start with the path array converted to a string and a colon. *)
Lemma lookup_invalidate path c k :
  mmkvInstance (invalidate path c) !! k =
    if String.eqb k (keyToString path) || startsWith k (array_toString path +:+ ":")
    then None
    else mmkvInstance c !! k.
Proof.
  unfold invalidate. cbn [mmkvInstance with_instance]. rewrite lookup_foldl_delete.
  set (test := λ key : string, if String.eqb key (keyToString path) then true
                               else startsWith key (array_toString path +:+ ":")).
  assert (String.eqb k (keyToString path) || startsWith k (array_toString path +:+ ":") = test k)
    as -> by (unfold test; by destruct (String.eqb k (keyToString path))).
  destruct (decide (k ∈ List.filter test (getAllKeys (mmkvInstance c)))) as [Hin|Hnot].
  - apply list_elem_of_In, filter_In in Hin as [_ ->]. done.
  - destruct (test k) eqn:Htest; [|done].
    destruct (mmkvInstance c !! k) as [s|] eqn:Hk; [|done].
    destruct Hnot. apply list_elem_of_In, filter_In. split; [|done].
    apply list_elem_of_In, elem_of_getAllKeys. by eexists.
Qed.

Lemma obind_Some {A B} (f : A → option B) x : Some x ≫= f = f x.
Proof. reflexivity. Qed.

Lemma obind_None {A B} (f : A → option B) : None ≫= f = None.
Proof. reflexivity. Qed.

Lemma kept_cons_ne now x keys j s :
  j ≠ x → kept now (x :: keys) j s = kept now keys j s.
Proof.
  intros Hne. unfold kept.
  replace (bool_decide (j ∈ x :: keys)) with (bool_decide (j ∈ keys)); [done|].
  apply bool_decide_ext. rewrite elem_of_cons. split; [by right|by intros [|]].
Qed.

Lemma kept_cons_fresh now x keys s :
  expired_record now s = false → kept now (x :: keys) x s = Some s.
Proof. intros H. unfold kept. by rewrite H, andb_false_r. Qed.

Lemma cleanUpKeys_ok now keys (m : gmap string string) :
  (∀ k s, m !! k = Some s → ∃ e, s = record_of e ∧ Json.representable (e_data e) = true) →
  ∃ m', cleanUpKeys now keys m = (m', Ok ()) ∧
        ∀ j, m' !! j = m !! j ≫= kept now keys j.
Proof.
  revert m. induction keys as [|keyStr rest IH]; intros m Hwf.
  - exists m. split; [done|]. intros j. destruct (m !! j); [|done].
    rewrite obind_Some. unfold kept.
    by rewrite bool_decide_eq_false_2 by apply not_elem_of_nil.
  - cbn [cleanUpKeys]. destruct (m !! keyStr) as [s|] eqn:Hk.
    + destruct (Hwf _ _ Hk) as (e & -> & He).
      rewrite record_not_empty, parse_record, isExpired_entry by done.
      pose proof (expired_record_entry now e He) as Hexp.
      destruct (bool_decide (e_cacheTime e < now - e_timestamp e)) eqn:Hb.
      * destruct (IH (delete keyStr m)) as (m' & -> & Hm').
        { intros k s Hs. apply lookup_delete_Some in Hs as [_ Hs]. by eapply Hwf. }
        exists m'. split; [done|]. intros j. rewrite Hm'.
        destruct (decide (j = keyStr)) as [->|Hne].
        -- rewrite lookup_delete_eq, Hk, obind_Some, obind_None. unfold kept.
           by rewrite bool_decide_eq_true_2, Hexp by left.
        -- rewrite lookup_delete_ne by done. destruct (m !! j) as [s|]; [|done].
           by rewrite !obind_Some, kept_cons_ne.
      * destruct (IH m Hwf) as (m' & -> & Hm').
        exists m'. split; [done|]. intros j. rewrite Hm'.
        destruct (m !! j) as [s|] eqn:Hj; [|done]. rewrite !obind_Some.
        destruct (decide (j = keyStr)) as [->|Hne].
        -- assert (s = record_of e) as -> by congruence.
           rewrite kept_cons_fresh by done. unfold kept. by rewrite Hexp, andb_false_r.
        -- by rewrite kept_cons_ne.
    + destruct (IH m Hwf) as (m' & -> & Hm').
      exists m'. split; [done|]. intros j. rewrite Hm'.
      destruct (m !! j) as [s|] eqn:Hj; [|done]. rewrite !obind_Some.
      assert (j ≠ keyStr) as Hne by congruence. by rewrite kept_cons_ne.
Qed.

Lemma cleanUp_ok now c :
  well_formed c →
  ∃ c', cleanUp now c = (c', Ok ()) ∧ options c' = options c ∧
        ∀ j, mmkvInstance c' !! j =
               mmkvInstance c !! j ≫= λ s, if expired_record now s then None else Some s.
Proof.
  intros Hwf. unfold cleanUp.
  destruct (cleanUpKeys_ok now (getAllKeys (mmkvInstance c)) (mmkvInstance c) Hwf)
    as (m' & -> & Hm').
  eexists. split; [done|]. split; [done|]. intros j. cbn [mmkvInstance with_instance].
  rewrite Hm'. destruct (mmkvInstance c !! j) as [s|] eqn:Hj; [|done].
  rewrite !obind_Some. unfold kept.
  rewrite bool_decide_eq_true_2; [done|]. apply elem_of_getAllKeys. by eexists.
Qed.

Section Methods.
Context {C : Constants}.

Lemma set_holds now p c :
  key p ≠ [] → Json.representable (data p) = true →
  holds (set now p c) (key p) (newEntry now (options c) p).
Proof.
  intros Hkey Hdata. unfold set, holds.
  destruct (key p) as [|part rest] eqn:Hk; [done|].
  cbn [mmkvInstance with_instance]. by rewrite lookup_insert_eq.
Qed.

Lemma lookup_set_other now p c k :
  k ≠ keyToString (key p) →
  mmkvInstance (set now p c) !! k = mmkvInstance c !! k.
Proof.
  intros Hne. unfold set. destruct (key p) as [|part rest] eqn:Hk; [done|].
  cbn [mmkvInstance with_instance]. by rewrite lookup_insert_ne.
Qed.

Lemma set_well_formed now p c :
  Json.representable (data p) = true → well_formed c → well_formed (set now p c).
Proof.
  intros Hdata Hwf k s. unfold set.
  destruct (key p) as [|part rest] eqn:Hk; [apply Hwf|].
  cbn [mmkvInstance with_instance]. rewrite lookup_insert. case_decide.
  - intros [= <-]. by eexists.
  - apply Hwf.
Qed.

End Methods.

Lemma create_well_formed o : well_formed (create o ∅).
Proof. intros k s. unfold create. cbn. by rewrite lookup_empty. Qed.

Lemma invalidate_well_formed path c : well_formed c → well_formed (invalidate path c).
Proof.
  intros Hwf k s. rewrite lookup_invalidate.
  destruct (_ || _); [done|apply Hwf].
Qed.

(** *** Physical keys *)

Lemma prefix_append (p x : string) : String.prefix p (p +:+ x) = true.
Proof.
  induction p as [|a p IH]; [by destruct x|].
  change (String a p +:+ x) with (String a (p +:+ x)). cbn [String.prefix].
  by destruct (ascii_dec a a).
Qed.

Lemma append_assoc (a b c : string) : (a +:+ b) +:+ c = a +:+ (b +:+ c).
Proof.
  induction a as [|x a IH]; [done|].
  change (String x a +:+ b) with (String x (a +:+ b)).
  change (String x (a +:+ b) +:+ c) with (String x ((a +:+ b) +:+ c)).
  by rewrite IH.
Qed.

Lemma keyToString_cons part rest :
  rest ≠ [] →
  keyToString (part :: rest) = segment_string part +:+ ":" +:+ keyToString rest.
Proof. by destruct rest. Qed.

Lemma keyToString_delimiter (a b : string) (rest : CacheKey) :
  keyToString (SStr (a +:+ ":" +:+ b) :: rest) = keyToString (SStr a :: SStr b :: rest).
Proof.
  unfold keyToString. cbn [fmap list_fmap join segment_string].
  destruct (segment_string <$> rest); by rewrite ?append_assoc.
Qed.

(** A path of one segment: the test of the filter is the intended one. *)
Lemma invalidate_single_below part rest c :
  mmkvInstance (invalidate [part] c) !! keyToString (part :: rest) = None.
Proof.
  rewrite lookup_invalidate.
  destruct rest as [|part' rest].
  - by rewrite String.eqb_refl.
  - rewrite keyToString_cons by done.
    replace (startsWith _ _) with true; [by rewrite orb_true_r|].
    unfold startsWith, array_toString. cbn [fmap list_fmap join].
    rewrite <- append_assoc. symmetry. apply prefix_append.
Qed.

(** *** A record that does not parse stops the sweep *)

Lemma cleanUpKeys_unparsable now keys (m : gmap string string) k s :
  k ∈ keys → m !! k = Some s → s ≠ "" → Json.parse s = None →
  ∃ e, (cleanUpKeys now keys m).2 = Throw e.
Proof.
  intros Hin Hk Hne Hparse. revert m Hk.
  induction keys as [|keyStr rest IH]; intros m Hk; [by apply elem_of_nil in Hin|].
  cbn [cleanUpKeys].
  destruct (decide (keyStr = k)) as [->|Hdiff].
  - rewrite Hk, Hparse.
    destruct (String.eqb s "") eqn:Heq; [by apply String.eqb_eq in Heq|]. by eexists.
  - assert (k ∈ rest) as Hrest by (apply elem_of_cons in Hin as [|]; done).
    destruct (m !! keyStr) as [s'|]; [|by apply IH].
    destruct (String.eqb s' ""); [by apply IH|].
    destruct (Json.parse s') as [entry|]; [|by eexists].
    destruct (isExpired now entry) as [[]|e]; [| |by eexists].
    + apply IH; [done|]. by rewrite lookup_delete_ne.
    + by apply IH.
Qed.

Lemma cleanUp_well_formed now c :
  well_formed c → well_formed (cleanUp now c).1.
Proof.
  intros Hwf. destruct (cleanUp_ok now c Hwf) as (c' & -> & _ & Hlook).
  intros k s. cbn [fst]. rewrite Hlook.
  destruct (mmkvInstance c !! k) as [s'|] eqn:Hk; [|done].
  rewrite obind_Some. destruct (expired_record now s'); [done|].
  intros [= <-]. by eapply Hwf.
Qed.

(** *** Records of any data, and instances of readable records *)

Lemma parse_record_any e :
  Json.parse (record_of e) = Some (Json.reparsed (entry_value e)).
Proof. apply parse_stringify_any. Qed.

Lemma reparsed_entry_number e name n :
  name ≠ "data" →
  getProp (entry_value e) name = Ok (VNum n) →
  getProp (Json.reparsed (entry_value e)) name = Ok (VNum n).
Proof.
  unfold getProp, entry_value. cbn [Json.reparsed]. intros Hname.
  rewrite lookup_omap, lookup_insert_ne by done.
  destruct (_ !! name) as [x|]; [|discriminate].
  cbn [default from_option id]. by intros [= ->].
Qed.

Lemma reparsed_entry_data e :
  getProp (Json.reparsed (entry_value e)) "data"
  = Ok (match e_data e with
        | VUndefined => VUndefined
        | d => Json.reparsed d
        end).
Proof.
  unfold getProp, entry_value. cbn [Json.reparsed].
  rewrite lookup_omap, lookup_insert_eq. by destruct (e_data e).
Qed.

Lemma isStale_reparsed now e :
  isStale now (Json.reparsed (entry_value e))
  = Ok (bool_decide (e_staleTime e < now - e_timestamp e)).
Proof.
  unfold isStale.
  rewrite (reparsed_entry_number e "timestamp" _ ltac:(done) (entry_value_timestamp e)).
  by rewrite (reparsed_entry_number e "staleTime" _ ltac:(done) (entry_value_staleTime e)).
Qed.




Lemma get_stores now key c e :
  stores c key e →
  get now key c =
    Ok {| r_data := match e_data e with
                    | VUndefined => VUndefined
                    | d => Json.reparsed d
                    end;
          r_stale := bool_decide (e_staleTime e < now - e_timestamp e) |}.
Proof.
  intros Hlook. unfold get. rewrite Hlook, record_not_empty, parse_record_any.
  by rewrite isStale_reparsed, reparsed_entry_data.
Qed.









(** *** Records with [null] durations *)




End MMKVFacts.

(** ** The orchestrator *)

(** Goals [e ∉ l] for an explicit list of events [l]. *)
Ltac not_among :=
  repeat (apply not_elem_of_cons; split; [try discriminate; try congruence|]);
  try apply not_elem_of_nil.

Module QueryFacts.
Import Query.

Section Orchestrator.
Context {S : Type} {store_ops : CacheStore S}.

Lemma run_get_throws p now (c : S) e :
  cache_get now (queryKey p) c = Throw e →
  run p now c = (c, [CacheGet (queryKey p)], Throw e).
Proof.
  intros Hget. unfold run, runWith, queryWithCache, mbind, M_bind, bind, cacheGet.
  cbn [cache clock trace record]. by rewrite Hget.
Qed.

Lemma run_fresh p now (c : S) ce :
  cache_get now (queryKey p) c = Ok ce →
  truthy (r_data ce) = true → r_stale ce = false →
  run p now c = (c, [CacheGet (queryKey p); OnData (r_data ce)], Ok ()).
Proof.
  intros Hget Hd Hs. unfold run, runWith, queryWithCache, mbind, M_bind, bind, cacheGet.
  cbn [cache clock trace record]. rewrite Hget, Hd, Hs. reflexivity.
Qed.

Lemma run_fetch p now (c : S) ce :
  cache_get now (queryKey p) c = Ok ce →
  truthy (r_data ce) && negb (r_stale ce) = false →
  run p now c =
    let d := r_data ce in
    match settles (queryFn p) with
    | Ok result =>
        let '(c', r) := cache_set (now + elapsed (queryFn p)) (written p result) c in
        let events :=
          before_fetch p d
          ++ (if isEqual result d then [] else [OnData result])
          ++ [CacheSet (written p result)] in
        match r with
        | Ok _ => (c', events ++ finally p d, Ok ())
        | Throw e =>
            if onError p then (c', events ++ OnError e :: finally p d, Ok ())
            else (c', events ++ finally p d, Throw e)
        end
    | Throw e =>
        if onError p then (c, before_fetch p d ++ OnError e :: finally p d, Ok ())
        else (c, before_fetch p d ++ finally p d, Throw e)
    end.
Proof.
  intros Hget Hfetch.
  unfold run, runWith, queryWithCache, mbind, M_bind, bind, cacheGet, before_fetch, finally, written.
  cbn [cache clock trace record]. rewrite Hget.
  unfold when, ret, call, try_catch_finally, await, cacheSet, throw, bind, record.
  cbn [completes returning onData_completes onIsFetching_completes onError_completes].
  destruct (truthy (r_data ce)) eqn:Hd; cbn [negb andb] in *.
  - rewrite Hfetch. cbn [negb cache clock trace app].
    destruct (settles (queryFn p)) as [result|e]; cbn [cache clock trace app].
    + destruct (isEqual result (r_data ce)); cbn [negb cache clock trace app];
        destruct (cache_set _ _ c) as [c' [[]|e]]; cbn [negb cache clock trace app];
        try (destruct (onError p)); reflexivity.
    + destruct (onError p); reflexivity.
  - destruct (onIsFetching p); cbn [cache clock trace app];
      (destruct (settles (queryFn p)) as [result|e]; cbn [cache clock trace app];
       [destruct (isEqual result (r_data ce)); cbn [negb cache clock trace app];
          destruct (cache_set _ _ c) as [c' [[]|e]]; cbn [negb cache clock trace app];
          try (destruct (onError p)); reflexivity
       |destruct (onError p); reflexivity]).
Qed.

(** The data [onData] received during a call, in order. *)
Lemma run_deliveries p now (c : S) ce :
  cache_get now (queryKey p) c = Ok ce →
  deliveries (run p now c).1.2 =
    (if truthy (r_data ce) then [r_data ce] else [])
    ++ (if truthy (r_data ce) && negb (r_stale ce) then []
        else
          match settles (queryFn p) with
          | Ok result => if isEqual result (r_data ce) then [] else [result]
          | Throw _ => []
          end).
Proof.
  intros Hget. destruct (truthy (r_data ce) && negb (r_stale ce)) eqn:Hfresh.
  - apply andb_true_iff in Hfresh as [Hd Hs]. apply negb_true_iff in Hs.
    rewrite (run_fresh p now c ce Hget Hd Hs), Hd. reflexivity.
  - rewrite (run_fetch p now c ce Hget Hfresh). cbn zeta.
    unfold before_fetch, finally.
    destruct (settles (queryFn p)) as [result|e].
    + destruct (cache_set _ _ c) as [c' [[]|e]]; [|destruct (onError p)]; cbn [fst snd];
        destruct (truthy (r_data ce)); destruct (onIsFetching p);
        destruct (isEqual result (r_data ce)); reflexivity.
    + destruct (onError p); cbn [fst snd];
        destruct (truthy (r_data ce)); destruct (onIsFetching p); reflexivity.
Qed.

(** A call whose callbacks may throw, when the fetch operation is reached
    and succeeds. *)
Lemma runWith_fetch_success callbacks p now (c : S) ce result :
  cache_get now (queryKey p) c = Ok ce →
  settles (queryFn p) = Ok result →
  QueryFn ∈ (runWith callbacks p now c).1.2 →
  runWith callbacks p now c =
    let d := r_data ce in
    let delivered :=
      if isEqual result d then Ok () else onData_completes callbacks result in
    let '(c', events, r) :=
      match delivered with
      | Ok _ =>
          let '(c', r) := cache_set (now + elapsed (queryFn p)) (written p result) c in
          (c', [CacheSet (written p result)], r)
      | Throw e => (c, [], Throw e)
      end in
    let '(handled, r') :=
      match r with
      | Ok _ => ([], Ok ())
      | Throw e =>
          if onError p then ([OnError e], onError_completes callbacks e)
          else ([], Throw e)
      end in
    (c',
     before_fetch p d
     ++ (if isEqual result d then [] else [OnData result])
     ++ events ++ handled ++ finally p d,
     if negb (truthy d) && onIsFetching p
     then match onIsFetching_completes callbacks false with
          | Ok _ => r'
          | Throw e => Throw e
          end
     else r').
Proof.
  intros Hget Hok.
  unfold runWith, queryWithCache, mbind, M_bind, bind, cacheGet, before_fetch, finally, written.
  cbn [cache clock trace record]. rewrite Hget.
  unfold when, ret, call, try_catch_finally, await, cacheSet, throw, bind, record.
  cbn [completes]. rewrite Hok.
  destruct (truthy (r_data ce)) eqn:Hd; cbn [negb andb cache clock trace app].
  - destruct (onData_completes callbacks (r_data ce)) as [[]|e0];
      cbn [negb andb cache clock trace app fst snd].
    2:{ intros H. exfalso. revert H. not_among. }
    destruct (r_stale ce); cbn [negb andb cache clock trace app fst snd].
    2:{ intros H. exfalso. revert H. not_among. }
    intros _.
    destruct (isEqual result (r_data ce)); cbn [negb cache clock trace app].
    + destruct (cache_set _ _ c) as [c' [[]|e]]; cbn [negb cache clock trace app];
        [reflexivity|].
      destruct (onError p); cbn [cache clock trace app]; [|reflexivity].
      destruct (onError_completes callbacks e) as [[]|e']; reflexivity.
    + destruct (onData_completes callbacks result) as [[]|e1]; cbn [negb cache clock trace app].
      * destruct (cache_set _ _ c) as [c' [[]|e]]; cbn [negb cache clock trace app];
          [reflexivity|].
        destruct (onError p); cbn [cache clock trace app]; [|reflexivity].
        destruct (onError_completes callbacks e) as [[]|e']; reflexivity.
      * destruct (onError p); cbn [cache clock trace app]; [|reflexivity].
        destruct (onError_completes callbacks e1) as [[]|e']; reflexivity.
  - destruct (onIsFetching p); cbn [negb andb cache clock trace app fst snd].
    + destruct (onIsFetching_completes callbacks true) as [[]|e0];
        cbn [negb andb cache clock trace app fst snd].
      2:{ intros H. exfalso. revert H. not_among. }
      intros _.
      destruct (isEqual result (r_data ce)); cbn [negb cache clock trace app].
      * destruct (cache_set _ _ c) as [c' [[]|e]]; cbn [negb cache clock trace app].
        { destruct (onIsFetching_completes callbacks false) as [[]|e']; reflexivity. }
        destruct (onError p); cbn [cache clock trace app].
        { destruct (onError_completes callbacks e) as [[]|e'];
            destruct (onIsFetching_completes callbacks false) as [[]|e'']; reflexivity. }
        destruct (onIsFetching_completes callbacks false) as [[]|e'']; reflexivity.
      * destruct (onData_completes callbacks result) as [[]|e1]; cbn [negb cache clock trace app].
        { destruct (cache_set _ _ c) as [c' [[]|e]]; cbn [negb cache clock trace app].
          { destruct (onIsFetching_completes callbacks false) as [[]|e']; reflexivity. }
          destruct (onError p); cbn [cache clock trace app].
          { destruct (onError_completes callbacks e) as [[]|e'];
              destruct (onIsFetching_completes callbacks false) as [[]|e'']; reflexivity. }
          destruct (onIsFetching_completes callbacks false) as [[]|e'']; reflexivity. }
        destruct (onError p); cbn [cache clock trace app].
        { destruct (onError_completes callbacks e1) as [[]|e'];
            destruct (onIsFetching_completes callbacks false) as [[]|e'']; reflexivity. }
        destruct (onIsFetching_completes callbacks false) as [[]|e'']; reflexivity.
    + intros _.
      destruct (isEqual result (r_data ce)); cbn [negb cache clock trace app].
      * destruct (cache_set _ _ c) as [c' [[]|e]]; cbn [negb cache clock trace app];
          [reflexivity|].
        destruct (onError p); cbn [cache clock trace app]; [|reflexivity].
        destruct (onError_completes callbacks e) as [[]|e']; reflexivity.
      * destruct (onData_completes callbacks result) as [[]|e1]; cbn [negb cache clock trace app].
        { destruct (cache_set _ _ c) as [c' [[]|e]]; cbn [negb cache clock trace app];
            [reflexivity|].
          destruct (onError p); cbn [cache clock trace app]; [|reflexivity].
          destruct (onError_completes callbacks e) as [[]|e']; reflexivity. }
        destruct (onError p); cbn [cache clock trace app]; [|reflexivity].
        destruct (onError_completes callbacks e1) as [[]|e']; reflexivity.
Qed.

End Orchestrator.
End QueryFacts.

(** * The statements of the specification *)

Import Query.

(** The store and the parameters of the examples. *)
Definition example_set (k : CacheKey) (d : value) : SetCacheParams :=
  {| key := k; data := d; staleTime := Some 1000; cacheTime := Some 1000 |}.

Definition example_memory : InMemory.CacheStoreInMemory :=
  InMemory.create (@defaultOptions sample_constants).

Definition example_flat : MMKV.CacheStoreMMKV :=
  MMKV.create (@defaultOptions sample_constants) ∅.

Definition example_query (settled : outcome value) (fetching error : bool) : QueryWithCacheParams :=
  {| queryKey := [SStr "k"];
     cacheExpirationTime := None;
     cacheStoredTime := None;
     queryFn := {| elapsed := 5; settles := settled |};
     onIsFetching := fetching;
     onError := error |}.

(** Callbacks of which [onData] throws [e] on every argument, the other
    two returning. *)
Definition throwing_onData (e : error) : Callbacks :=
  {| onData_completes := λ _, Throw e;
     onIsFetching_completes := λ _, Ok ();
     onError_completes := λ _, Ok () |}.

Definition memory_ops : CacheStore InMemory.CacheStoreInMemory :=
  @InMemory.CacheStore_InMemory sample_constants.

(** ** C1: prefix invalidation *)

(** C1, on the persisted store at the input where it fails: with entries
    stored at [a, b] and at [a, b, c], [invalidate([a, b])] removes the
    first and leaves the second, a descendant, in place: the filter tests
    [key.startsWith(path + ":")] with the array [path], that is
    ["a,b:"], and not with the joined key ["a:b:"]. *)
Theorem C1_flat_invalidate_keeps_descendant :
  let ab := [SStr "a"; SStr "b"] in
  let abc := [SStr "a"; SStr "b"; SStr "c"] in
  let c :=
    @MMKV.set sample_constants 0 (example_set abc (VNum 2))
      (@MMKV.set sample_constants 0 (example_set ab (VNum 1)) example_flat) in
  MMKV.get 0 ab c = Ok {| r_data := VNum 1; r_stale := false |} ∧
  MMKV.get 0 abc c = Ok {| r_data := VNum 2; r_stale := false |} ∧
  MMKV.get 0 ab (MMKV.invalidate ab c) = Ok miss ∧
  MMKV.get 0 abc (MMKV.invalidate ab c) = Ok {| r_data := VNum 2; r_stale := false |}.
Proof. vm_compute. repeat split. Qed.

(** ** C2: delivery of cached data *)

(** C2 as stated fails: the store holds a fresh entry whose data is the
    number 0; the orchestrator does not deliver it, fires the fetching
    callback, fetches and writes the store. *)
Lemma C2_counterexample_falsy_data :
  let c := (@InMemory.set sample_constants 0 (example_set [SStr "k"] (VNum 0)) example_memory).1 in
  let p := example_query (Ok (VNum 7)) true false in
  @cache_get _ memory_ops 0 (queryKey p) c = Ok {| r_data := VNum 0; r_stale := false |} ∧
  (@run _ memory_ops p 0 c).1.2 =
    [CacheGet [SStr "k"]; OnIsFetching true; QueryFn; OnData (VNum 7);
     CacheSet (written p (VNum 7)); OnIsFetching false].
Proof. vm_compute. split; reflexivity. Qed.

(** C2, amended: when the first read returns data that is truthy, [onData]
    is invoked with it right after the read and never again with it; if the
    entry is also not stale the call ends there: no fetch, no fetching
    callback, no write, the store unchanged. *)
Theorem C2_truthy_cached_data_delivered_first
    {S : Type} {ops : CacheStore S} (p : QueryWithCacheParams) (now : Z) (c : S) (ce : CacheEntryResult) :
  cache_get now (queryKey p) c = Ok ce →
  truthy (r_data ce) = true →
  (∃ rest, (run p now c).1.2 = CacheGet (queryKey p) :: OnData (r_data ce) :: rest ∧
           OnData (r_data ce) ∉ rest) ∧
  (r_stale ce = false →
   run p now c = (c, [CacheGet (queryKey p); OnData (r_data ce)], Ok ())).
Proof.
  intros Hget Hd. split; [|intros Hs; by apply QueryFacts.run_fresh].
  destruct (r_stale ce) eqn:Hs.
  - rewrite (QueryFacts.run_fetch p now c ce Hget) by (by rewrite Hd, Hs).
    unfold before_fetch, finally. rewrite Hd. cbn [negb andb app].
    destruct (settles (queryFn p)) as [result|e].
    + destruct (cache_set _ _ c) as [c' [[]|e]];
        [|destruct (onError p)]; cbn [fst snd]; eexists; (split; [reflexivity|]);
        unfold isEqual; case_bool_decide; cbn [app]; not_among.
    + destruct (onError p); cbn [fst snd]; eexists; (split; [reflexivity|]); not_among.
  - rewrite (QueryFacts.run_fresh p now c ce Hget Hd Hs). cbn [fst snd].
    eexists. split; [reflexivity|]. not_among.
Qed.

Lemma C2_witness :
  let c := (@InMemory.set sample_constants 0 (example_set [SStr "k"] (VStr "cached")) example_memory).1 in
  let p := example_query (Ok (VStr "new")) true false in
  let ce := {| r_data := VStr "cached"; r_stale := false |} in
  @cache_get _ memory_ops 0 (queryKey p) c = Ok ce ∧
  truthy (r_data ce) = true ∧
  (∃ rest, (@run _ memory_ops p 0 c).1.2
           = CacheGet (queryKey p) :: OnData (r_data ce) :: rest ∧
           OnData (r_data ce) ∉ rest) ∧
  (r_stale ce = false →
   @run _ memory_ops p 0 c = (c, [CacheGet (queryKey p); OnData (r_data ce)], Ok ())).
Proof.
  intros c p ce. split; [reflexivity|]. split; [reflexivity|].
  apply (@C2_truthy_cached_data_delivered_first _ memory_ops p 0 c ce); reflexivity.
Defined.

(** ** C3: the fetching-state callback *)




(** ** C4: a failed fetch *)



(** ** C5: a successful fetch *)

(** C5, counterexample: the store is empty, the fetch operation succeeds
    with ["new"], which differs from the data [null] of the first read, and
    [onData] throws when it is invoked with it. The invocation stands
    before the write inside the [try] block, so [set] is never reached:
    the error goes to [onError], the call completes normally, and the
    result is not in the store. *)
Lemma C5_counterexample_onData_throws :
  let p := example_query (Ok (VStr "new")) false true in
  let after := @runWith _ memory_ops (throwing_onData (Raised (VStr "render"))) p 0 example_memory in
  settles (queryFn p) = Ok (VStr "new") ∧
  after = (example_memory,
           [CacheGet (queryKey p); QueryFn; OnData (VStr "new");
            OnError (Raised (VStr "render"))],
           Ok ()) ∧
  (∀ s, CacheSet s ∉ after.1.2) ∧
  InMemory.get 5 (queryKey p) after.1.1 = miss.
Proof.
  intros p after. split; [reflexivity|]. split; [reflexivity|].
  split; [|reflexivity]. intros s. cbn. not_among.
Qed.

(** C5, amended: when the fetch operation is invoked and succeeds with
    [result], whatever the callbacks do,
    the events after its invocation start with [onData(result)] exactly when
    [result] is not deep-equal to the data of the first read, and [onData]
    is not invoked again. What follows depends on that invocation: when
    [result] is deep-equal to the data read, or [onData(result)] returns,
    the next event is the one [set] of the call, of [result] under the
    queried key with the caller's two overrides, and the store the call
    leaves is the one that [set] leaves; when [onData(result)] throws,
    [set] is not invoked and the store is the one the call found. *)
Theorem C5_fetch_success
    {S : Type} {ops : CacheStore S} (callbacks : Callbacks)
    (p : QueryWithCacheParams) (now : Z) (c : S)
    (ce : CacheEntryResult) (result : value) :
  cache_get now (queryKey p) c = Ok ce →
  settles (queryFn p) = Ok result →
  QueryFn ∈ (runWith callbacks p now c).1.2 →
  ∃ after,
    (runWith callbacks p now c).1.2
    = before_fetch p (r_data ce)
      ++ (if isEqual result (r_data ce) then [] else [OnData result])
      ++ after ∧
    (∀ d, OnData d ∉ after) ∧
    match (if isEqual result (r_data ce) then Ok () else onData_completes callbacks result) with
    | Ok _ =>
        (∃ rest, after = CacheSet (written p result) :: rest ∧ ∀ s, CacheSet s ∉ rest) ∧
        (runWith callbacks p now c).1.1
        = (cache_set (now + elapsed (queryFn p)) (written p result) c).1
    | Throw _ =>
        (∀ s, CacheSet s ∉ after) ∧ (runWith callbacks p now c).1.1 = c
    end.
Proof.
  intros Hget Hok Hfetch.
  rewrite (QueryFacts.runWith_fetch_success callbacks p now c ce result Hget Hok Hfetch).
  cbn zeta. unfold finally.
  destruct (if isEqual result (r_data ce) then Ok () else onData_completes callbacks result)
    as [[]|e].
  - destruct (cache_set _ _ c) as [c' [[]|e]]; [|destruct (onError p)]; cbn [fst snd app];
      (eexists; split; [reflexivity|]); (split; [|split; [|reflexivity]]);
      try (eexists; split; [reflexivity|]); intros x;
      destruct (negb (truthy (r_data ce)) && onIsFetching p); not_among.
  - destruct (onError p); cbn [fst snd app];
      (eexists; split; [reflexivity|]); (split; [|split; [|reflexivity]]); intros x;
      destruct (negb (truthy (r_data ce)) && onIsFetching p); not_among.
Qed.

Lemma C5_witness :
  let p := example_query (Ok (VStr "new")) true false in
  @cache_get _ memory_ops 0 (queryKey p) example_memory = Ok miss ∧
  settles (queryFn p) = Ok (VStr "new") ∧
  QueryFn ∈ (@runWith _ memory_ops returning p 0 example_memory).1.2 ∧
  ∃ after,
    (@runWith _ memory_ops returning p 0 example_memory).1.2
    = [CacheGet (queryKey p); OnIsFetching true; QueryFn; OnData (VStr "new")] ++ after.
Proof.
  intros p.
  assert (QueryFn ∈ (@runWith _ memory_ops returning p 0 example_memory).1.2) as Hfetch.
  { vm_compute. apply elem_of_cons. right. apply elem_of_cons. right. left. }
  split; [reflexivity|]. split; [reflexivity|]. split; [exact Hfetch|].
  destruct (@C5_fetch_success _ memory_ops returning p 0 example_memory miss (VStr "new")
              eq_refl eq_refl Hfetch) as [after [Htrace _]].
  exists after. exact Htrace.
Defined.

(** ** C9: a fetch that resolves to null on a miss *)

(** C9: when the first read returns the data [null] and the fetch
    operation resolves to a value deep-equal to [null], [onData] is not
    invoked at any point of the call, and the value is still written with
    [set]. *)
Theorem C9_null_result_never_delivered
    {S : Type} {ops : CacheStore S} (p : QueryWithCacheParams) (now : Z) (c : S)
    (stale : bool) (result : value) :
  cache_get now (queryKey p) c = Ok {| r_data := VNull; r_stale := stale |} →
  settles (queryFn p) = Ok result →
  isEqual result VNull = true →
  (∀ d, OnData d ∉ (run p now c).1.2) ∧
  CacheSet (written p result) ∈ (run p now c).1.2 ∧
  (run p now c).1.1 = (cache_set (now + elapsed (queryFn p)) (written p result) c).1.
Proof.
  intros Hget Hok Heq.
  rewrite (QueryFacts.run_fetch p now c _ Hget) by done.
  rewrite Hok. cbn zeta. cbn [r_data]. rewrite Heq.
  unfold before_fetch, finally. cbn [truthy negb andb app].
  destruct (cache_set _ _ c) as [c' [[]|e]]; [|destruct (onError p)]; cbn [fst snd];
    (split; [intros d; destruct (onIsFetching p); cbn [app]; not_among|]);
    (split; [|done]);
    destruct (onIsFetching p); cbn [app];
    repeat (first [by apply list_elem_of_here|apply list_elem_of_further]).
Qed.

Lemma C9_witness :
  let p := example_query (Ok VNull) true false in
  @cache_get _ memory_ops 0 (queryKey p) example_memory = Ok {| r_data := VNull; r_stale := false |} ∧
  settles (queryFn p) = Ok VNull ∧
  isEqual VNull VNull = true ∧
  (∀ d, OnData d ∉ (@run _ memory_ops p 0 example_memory).1.2) ∧
  CacheSet (written p VNull) ∈ (@run _ memory_ops p 0 example_memory).1.2.
Proof.
  intros p. split; [reflexivity|]. split; [reflexivity|]. split; [reflexivity|].
  destruct (@C9_null_result_never_delivered _ memory_ops p 0 example_memory false VNull
              eq_refl eq_refl eq_refl) as (Hdata & Hset & _).
  split; [exact Hdata|exact Hset].
Defined.

(** ** C6: malformed records of the persisted store *)

(** C6 as stated fails: the record under the key ["k"] is the text of an
    unfinished object; [get] does not return a miss, it throws the
    [SyntaxError] of [JSON.parse]. *)
Lemma C6_counterexample_malformed_record :
  let c := MMKV.with_instance example_flat {["k" := "{"]} in
  Json.parse "{" = None ∧
  MMKV.get 0 [SStr "k"] c = Throw SyntaxError ∧
  MMKV.get 0 [SStr "k"] c ≠ Ok miss.
Proof. split; [reflexivity|]. split; [reflexivity|discriminate]. Qed.

(** C6, amended: for a key whose record is a non-empty text that
    [JSON.parse] refuses, [get] throws the [SyntaxError]: the parse is not
    guarded, the failure reaches the caller. *)
Theorem C6_unparsable_record_throws
    (now : Z) (key : CacheKey) (c : MMKV.CacheStoreMMKV) (storedValue : string) :
  MMKV.mmkvInstance c !! MMKV.keyToString key = Some storedValue →
  storedValue ≠ "" →
  Json.parse storedValue = None →
  MMKV.get now key c = Throw SyntaxError.
Proof. apply MMKVFacts.get_unparsable. Qed.

Lemma C6_witness :
  let c := MMKV.with_instance example_flat {["k" := "{"]} in
  MMKV.mmkvInstance c !! MMKV.keyToString [SStr "k"] = Some "{" ∧
  "{" ≠ "" ∧
  Json.parse "{" = None ∧
  MMKV.get 0 [SStr "k"] c = Throw SyntaxError.
Proof.
  intros c.
  assert ("{" ≠ "") as Hne by discriminate.
  split; [reflexivity|]. split; [exact Hne|]. split; [reflexivity|].
  exact (C6_unparsable_record_throws 0 [SStr "k"] c "{" eq_refl Hne eq_refl).
Defined.

(** ** C7: [set] then [get] *)

(** C7 as stated fails on the in-memory store: after [set(["a"], 1)] the
    node at ["a"] holds its entry under the property ["cacheEntry"], so
    [set(["a", "cacheEntry"], 2)] takes that entry for a node and throws;
    the following [get] returns a miss. *)
Lemma C7_counterexample_marker_segment :
  let c := (@InMemory.set sample_constants 0 (example_set [SStr "a"] (VNum 1)) example_memory).1 in
  let p := example_set [SStr "a"; SStr "cacheEntry"] (VNum 2) in
  (@InMemory.set sample_constants 0 p c).2 = Throw (TypeError "node.set is not a function") ∧
  InMemory.get 0 (key p) (@InMemory.set sample_constants 0 p c).1 = miss ∧
  InMemory.get 0 (key p) (@InMemory.set sample_constants 0 p c).1
  ≠ {| r_data := VNum 2; r_stale := false |}.
Proof. vm_compute. split; [reflexivity|]. split; [reflexivity|discriminate]. Qed.

(** C7, amended: for a non-empty key and a resolved stale time that is
    not negative. In-memory store: on a store built by the store's methods
    and for a key without the segment ["cacheEntry"], [set] returns
    normally; and whenever [set] returns normally, [get] of the same key at
    the same instant returns the data, not stale. Persisted store: for data
    that JSON represents, [get] after [set] returns the data, not stale. *)
Theorem C7_set_then_get
    {C : Constants} (now : Z) (p : SetCacheParams) :
  key p ≠ [] →
  (∀ c : InMemory.CacheStoreInMemory,
     0 ≤ nullish (staleTime p) (defaultStaleTime (InMemory.options c)) DEFAULT_STALE_TIME →
     (InMemory.wf c → InMemory.marker ∉ key p → (InMemory.set now p c).2 = Ok ()) ∧
     ((InMemory.set now p c).2 = Ok () →
      InMemory.get now (key p) (InMemory.set now p c).1
      = {| r_data := data p; r_stale := false |})) ∧
  (∀ c : MMKV.CacheStoreMMKV,
     0 ≤ nullish (staleTime p) (defaultStaleTime (MMKV.options c)) DEFAULT_STALE_TIME →
     Json.representable (data p) = true →
     MMKV.get now (key p) (MMKV.set now p c)
     = Ok {| r_data := data p; r_stale := false |}).
Proof.
  intros Hkey. split.
  - intros c Hstale. split.
    + intros Hwf Hmarker. by apply InMemoryFacts.set_ok.
    + intros Hok. rewrite InMemoryFacts.get_slot.
      rewrite (InMemoryFacts.slot_set_same now p c Hkey Hok).
      cbn [e_data newEntry]. f_equal. unfold InMemory.isStale. cbn [e_staleTime e_timestamp newEntry].
      apply bool_decide_eq_false_2. lia.
  - intros c Hstale Hdata.
    rewrite (MMKVFacts.get_holds now (key p) _ _ (MMKVFacts.set_holds now p c Hkey Hdata)).
    cbn [e_data newEntry]. do 2 f_equal. cbn [e_staleTime e_timestamp newEntry].
    apply bool_decide_eq_false_2. lia.
Qed.

Lemma C7_witness :
  let p := example_set [SStr "user"; SNum 7] (VArr [VStr "x"; VNum 1]) in
  key p ≠ [] ∧
  (0 ≤ nullish (staleTime p) (defaultStaleTime (InMemory.options example_memory))
         (@DEFAULT_STALE_TIME sample_constants) →
   InMemory.wf example_memory → InMemory.marker ∉ key p →
   (@InMemory.set sample_constants 0 p example_memory).2 = Ok ()) ∧
  (0 ≤ nullish (staleTime p) (defaultStaleTime (MMKV.options example_flat))
         (@DEFAULT_STALE_TIME sample_constants) →
   Json.representable (data p) = true →
   MMKV.get 0 (key p) (@MMKV.set sample_constants 0 p example_flat)
   = Ok {| r_data := data p; r_stale := false |}).
Proof.
  intros p.
  assert (key p ≠ []) as Hkey by discriminate.
  destruct (@C7_set_then_get sample_constants 0 p Hkey) as [Hmem Hflat].
  split; [exact Hkey|]. split.
  - intros Hstale. exact (proj1 (Hmem example_memory Hstale)).
  - exact (Hflat example_flat).
Defined.

(** ** C8: the sweep *)




(** ** C10: [set] leaves the other keys alone *)

(** C10: on the in-memory store, for two distinct keys without the
    segment ["cacheEntry"], [set] under the first leaves what [get] returns
    for the second unchanged, whether or not one key is a prefix of the
    other, and whatever the tree. *)
Theorem C10_set_leaves_other_keys
    {C : Constants} (now : Z) (p : SetCacheParams) (c : InMemory.CacheStoreInMemory)
    (key2 : CacheKey) (t : Z) :
  key p ≠ [] → key2 ≠ [] → key p ≠ key2 →
  InMemory.marker ∉ key p → InMemory.marker ∉ key2 →
  InMemory.get t key2 (InMemory.set now p c).1 = InMemory.get t key2 c.
Proof.
  intros _ _ Hne Hk1 Hk2.
  by rewrite !InMemoryFacts.get_slot, InMemoryFacts.slot_set_other.
Qed.

Lemma C10_witness :
  let c := (@InMemory.set sample_constants 0 (example_set [SStr "a"; SStr "b"] (VNum 1)) example_memory).1 in
  let p := example_set [SStr "a"] (VNum 2) in
  let key2 := [SStr "a"; SStr "b"] in
  key p ≠ [] ∧ key2 ≠ [] ∧ key p ≠ key2 ∧
  (InMemory.marker ∉ key p) ∧ (InMemory.marker ∉ key2) ∧
  InMemory.get 5 key2 (@InMemory.set sample_constants 3 p c).1 = InMemory.get 5 key2 c.
Proof.
  intros c p key2.
  assert (key p ≠ []) as H1 by discriminate.
  assert (key2 ≠ []) as H2 by discriminate.
  assert (key p ≠ key2) as H3 by discriminate.
  assert (InMemory.marker ∉ key p) as H4 by (unfold InMemory.marker; not_among).
  assert (InMemory.marker ∉ key2) as H5 by (unfold InMemory.marker; not_among).
  repeat (split; [assumption|]).
  exact (@C10_set_leaves_other_keys sample_constants 3 p c key2 5 H1 H2 H3 H4 H5).
Defined.

(** * Further properties of the code *)

(** ** The in-memory store *)

(** X1: [invalidate(key)] for a non-empty key removes the whole subtree:
    afterwards [get] misses at [key] and at every key that extends it. *)
Theorem X1_memory_invalidate_removes_subtree
    (now : Z) (key key2 : CacheKey) (c : InMemory.CacheStoreInMemory) :
  key ≠ [] → key `prefix_of` key2 →
  InMemory.get now key2 (InMemory.invalidate key c) = miss.
Proof. apply InMemoryFacts.get_invalidate_below. Qed.

Lemma X1_witness :
  let c := (@InMemory.set sample_constants 0 (example_set [SStr "a"; SStr "b"] (VNum 1)) example_memory).1 in
  [SStr "a"] ≠ [] ∧ [SStr "a"] `prefix_of` [SStr "a"; SStr "b"] ∧
  InMemory.get 0 [SStr "a"; SStr "b"] c = {| r_data := VNum 1; r_stale := false |} ∧
  InMemory.get 0 [SStr "a"; SStr "b"] (InMemory.invalidate [SStr "a"] c) = miss.
Proof.
  intros c.
  assert ([SStr "a"] ≠ ([] : CacheKey)) as H1 by discriminate.
  assert ([SStr "a"] `prefix_of` [SStr "a"; SStr "b"]) as H2 by (by exists [SStr "b"]).
  split; [exact H1|]. split; [exact H2|]. split; [reflexivity|].
  exact (X1_memory_invalidate_removes_subtree 0 [SStr "a"] [SStr "a"; SStr "b"] c H1 H2).
Defined.

(** X2: [invalidate(key)] leaves what [get] returns unchanged at every key
    that does not extend [key], except the one key whose marker slot is
    [key] itself (see X3). Siblings and ancestors are untouched. *)
Theorem X2_memory_invalidate_leaves_others
    (now : Z) (key key2 : CacheKey) (c : InMemory.CacheStoreInMemory) :
  ¬ key `prefix_of` key2 → key ≠ key2 ++ [InMemory.marker] →
  InMemory.get now key2 (InMemory.invalidate key c) = InMemory.get now key2 c.
Proof. apply InMemoryFacts.get_invalidate_other. Qed.

Lemma X2_witness :
  let c := (@InMemory.set sample_constants 0 (example_set [SStr "a"; SStr "c"] (VNum 1)) example_memory).1 in
  let key := [SStr "a"; SStr "x"] in
  let key2 := [SStr "a"; SStr "c"] in
  ¬ key `prefix_of` key2 ∧ key ≠ key2 ++ [InMemory.marker] ∧
  InMemory.get 0 key2 (InMemory.invalidate key c) = InMemory.get 0 key2 c.
Proof.
  intros c key key2.
  assert (¬ key `prefix_of` key2) as H1 by (intros [r Hr]; discriminate Hr).
  assert (key ≠ key2 ++ [InMemory.marker]) as H2 by discriminate.
  split; [exact H1|]. split; [exact H2|].
  exact (X2_memory_invalidate_leaves_others 0 key key2 c H1 H2).
Defined.

(** X3: the marker is an ordinary segment for [invalidate]: invalidating
    [key] extended by ["cacheEntry"] deletes the entry stored at [key]
    itself. *)
Theorem X3_memory_invalidate_marker_removes_entry
    (now : Z) (key : CacheKey) (c : InMemory.CacheStoreInMemory) :
  InMemory.get now key (InMemory.invalidate (key ++ [InMemory.marker]) c) = miss.
Proof. apply InMemoryFacts.get_invalidate_marker. Qed.

(** X4: a [set] that throws has changed nothing: the store it leaves is
    the store it was called on. *)
Theorem X4_memory_failed_set_changes_nothing
    {C : Constants} (now : Z) (p : SetCacheParams) (c : InMemory.CacheStoreInMemory) (e : error) :
  (InMemory.set now p c).2 = Throw e → (InMemory.set now p c).1 = c.
Proof. apply InMemoryFacts.set_throws_unchanged. Qed.

Lemma X4_witness :
  let c := (@InMemory.set sample_constants 0 (example_set [SStr "a"] (VNum 1)) example_memory).1 in
  let p := example_set [SStr "a"; SStr "cacheEntry"; SStr "b"] (VNum 2) in
  (@InMemory.set sample_constants 0 p c).2 = Throw (TypeError "current.has is not a function") ∧
  (@InMemory.set sample_constants 0 p c).1 = c.
Proof.
  intros c p. split; [reflexivity|].
  exact (@X4_memory_failed_set_changes_nothing sample_constants 0 p c _ eq_refl).
Defined.

(** X5: the methods keep the shape of the tree: in the store a
    constructor returns, and after any [set], [invalidate] or [cleanUp] on
    a store of that shape, an entry only ever sits under the marker. *)
Theorem X5_memory_methods_keep_shape
    {C : Constants} (o : CacheOptions) (c : InMemory.CacheStoreInMemory) :
  InMemory.wf c →
  InMemory.wf (InMemory.create o) ∧
  (∀ now p, InMemory.wf (InMemory.set now p c).1) ∧
  (∀ key, InMemory.wf (InMemory.invalidate key c)) ∧
  (∀ now, InMemory.wf (InMemory.cleanUp now c)).
Proof.
  intros Hwf. split; [apply InMemoryFacts.create_wf|].
  split; [intros now p; by apply InMemoryFacts.set_wf|].
  split; [intros key; by apply InMemoryFacts.invalidate_wf|].
  intros now. by apply InMemoryFacts.cleanUp_wf.
Qed.

Lemma X5_witness :
  InMemory.wf example_memory ∧
  InMemory.wf (@InMemory.set sample_constants 0 (example_set [SStr "a"] (VNum 1)) example_memory).1.
Proof.
  assert (InMemory.wf example_memory) as Hwf by apply InMemoryFacts.create_wf.
  split; [exact Hwf|].
  destruct (@X5_memory_methods_keep_shape sample_constants (@defaultOptions sample_constants)
              example_memory Hwf) as (_ & Hset & _).
  exact (Hset 0 (example_set [SStr "a"] (VNum 1))).
Defined.

(** X6: staleness is decided at read time from the entry's own fields.
    In-memory store: after a [set] at time [now] that returned normally,
    [get] of the same key at time [t] returns the data with [stale]
    exactly when [t - now] exceeds the resolved stale time (per-call
    value, else the store's default, else the library's). *)
Theorem X6_stale_exactly_after_staleTime
    {C : Constants} (now t : Z) (p : SetCacheParams) (c : InMemory.CacheStoreInMemory) :
  key p ≠ [] →
  (InMemory.set now p c).2 = Ok () →
  InMemory.get t (key p) (InMemory.set now p c).1
  = {| r_data := data p;
       r_stale := bool_decide
         (nullish (staleTime p) (defaultStaleTime (InMemory.options c)) DEFAULT_STALE_TIME
          < t - now) |}.
Proof.
  intros Hkey Hok. rewrite InMemoryFacts.get_slot.
  by rewrite (InMemoryFacts.slot_set_same now p c Hkey Hok).
Qed.

Lemma X6_witness :
  let p := example_set [SStr "k"] (VStr "v") in
  key p ≠ [] ∧
  (@InMemory.set sample_constants 0 p example_memory).2 = Ok () ∧
  InMemory.get 1000 (key p) (@InMemory.set sample_constants 0 p example_memory).1
  = {| r_data := VStr "v"; r_stale := false |} ∧
  InMemory.get 1001 (key p) (@InMemory.set sample_constants 0 p example_memory).1
  = {| r_data := VStr "v"; r_stale := true |}.
Proof.
  intros p.
  assert (key p ≠ []) as Hkey by discriminate.
  split; [exact Hkey|]. split; [reflexivity|].
  split.
  - exact (@X6_stale_exactly_after_staleTime sample_constants 0 1000 p example_memory
             Hkey eq_refl).
  - exact (@X6_stale_exactly_after_staleTime sample_constants 0 1001 p example_memory
             Hkey eq_refl).
Defined.

(** X7: an in-memory store that was just constructed misses at every
    key, the empty key included. *)
Theorem X7_new_store_misses (now : Z) (key : CacheKey) (o : CacheOptions) :
  InMemory.get now key (InMemory.create o) = miss.
Proof. apply InMemoryFacts.get_create. Qed.

(** X8: a second sweep at the same instant changes nothing a reader can
    see. *)
Theorem X8_memory_cleanUp_twice
    (now t : Z) (key : CacheKey) (c : InMemory.CacheStoreInMemory) :
  InMemory.get t key (InMemory.cleanUp now (InMemory.cleanUp now c))
  = InMemory.get t key (InMemory.cleanUp now c).
Proof. apply InMemoryFacts.get_cleanUp_twice. Qed.

(** X9: [getOrCreateNode(map, key)] only adds nodes along [key]: every
    path that is not a prefix of [key] resolves as before, whether the walk
    completes or throws. *)
Theorem X9_getOrCreateNode_only_adds_along_key
    (m : gmap segment InMemory.CacheStoreNode) (key q : CacheKey) :
  ¬ q `prefix_of` key →
  InMemory.getNode (InMemory.getOrCreateNode m key).1 q = InMemory.getNode m q.
Proof. apply InMemoryFacts.getOrCreateNode_frame. Qed.

Lemma X9_witness :
  let m := InMemory.store (@InMemory.set sample_constants 0 (example_set [SStr "a"] (VNum 1)) example_memory).1 in
  let key := [SStr "a"; SStr "b"; SStr "c"] in
  let q := [SStr "a"; SStr "cacheEntry"] in
  ¬ q `prefix_of` key ∧
  InMemory.getNode (InMemory.getOrCreateNode m key).1 q = InMemory.getNode m q.
Proof.
  intros m key q.
  assert (¬ q `prefix_of` key) as H by (intros [r Hr]; discriminate Hr).
  split; [exact H|]. exact (X9_getOrCreateNode_only_adds_along_key m key q H).
Defined.

(** ** The persisted store *)

(** X10: what [invalidate(path)] deletes, record by record: the physical
    key equal to the joined path, and the physical keys that start with the
    array [path] converted to a string (its segments joined by commas)
    followed by a colon. Every other record is left as it was. *)
Theorem X10_flat_invalidate_deletes
    (path : CacheKey) (c : MMKV.CacheStoreMMKV) (k : string) :
  MMKV.mmkvInstance (MMKV.invalidate path c) !! k =
    if String.eqb k (MMKV.keyToString path)
       || MMKV.startsWith k (MMKV.array_toString path +:+ ":")
    then None
    else MMKV.mmkvInstance c !! k.
Proof. apply MMKVFacts.lookup_invalidate. Qed.

(** X11: for a path of a single segment the filter is the intended one:
    [invalidate([part])] removes the entry at [[part]] and at every key
    that extends it. *)
Theorem X11_flat_invalidate_single_segment
    (now : Z) (part : segment) (rest : CacheKey) (c : MMKV.CacheStoreMMKV) :
  MMKV.get now (part :: rest) (MMKV.invalidate [part] c) = Ok miss.
Proof. apply MMKVFacts.get_miss, MMKVFacts.invalidate_single_below. Qed.

(** X12: [set] writes one physical record: [get] of a key whose joined
    form differs from that of the key written answers as before. *)
Theorem X12_flat_set_leaves_other_records
    {C : Constants} (now t : Z) (p : SetCacheParams) (key2 : CacheKey) (c : MMKV.CacheStoreMMKV) :
  MMKV.keyToString key2 ≠ MMKV.keyToString (key p) →
  MMKV.get t key2 (MMKV.set now p c) = MMKV.get t key2 c.
Proof.
  intros Hne. unfold MMKV.get. by rewrite MMKVFacts.lookup_set_other.
Qed.

Lemma X12_witness :
  let p := example_set [SStr "a"] (VNum 2) in
  let key2 := [SStr "a"; SStr "b"] in
  let c := @MMKV.set sample_constants 0 (example_set key2 (VNum 1)) example_flat in
  MMKV.keyToString key2 ≠ MMKV.keyToString (key p) ∧
  MMKV.get 5 key2 (@MMKV.set sample_constants 3 p c) = MMKV.get 5 key2 c.
Proof.
  intros p key2 c.
  assert (MMKV.keyToString key2 ≠ MMKV.keyToString (key p)) as H by discriminate.
  split; [exact H|].
  exact (@X12_flat_set_leaves_other_records sample_constants 3 5 p key2 c H).
Defined.

(** X13: segments are joined without escaping the delimiter, so distinct
    keys can share a physical key: what is stored under the two segments
    [a], [b] is read back under the single segment [a:b]. *)
Theorem X13_flat_keys_alias
    {C : Constants} (now t : Z) (a b : string) (rest : CacheKey)
    (d : value) (st ct : option Z) (c : MMKV.CacheStoreMMKV) :
  Json.representable d = true →
  MMKV.get t (SStr (a +:+ ":" +:+ b) :: rest)
    (MMKV.set now {| key := SStr a :: SStr b :: rest; data := d; staleTime := st; cacheTime := ct |} c)
  = MMKV.get t (SStr a :: SStr b :: rest)
      (MMKV.set now {| key := SStr a :: SStr b :: rest; data := d; staleTime := st; cacheTime := ct |} c) ∧
  (∃ stale, MMKV.get t (SStr (a +:+ ":" +:+ b) :: rest)
      (MMKV.set now {| key := SStr a :: SStr b :: rest; data := d; staleTime := st; cacheTime := ct |} c)
    = Ok {| r_data := d; r_stale := stale |}).
Proof.
  intros Hd. set (p := {| key := SStr a :: SStr b :: rest; data := d |}).
  assert (MMKV.get t (SStr (a +:+ ":" +:+ b) :: rest) (MMKV.set now p c)
          = MMKV.get t (SStr a :: SStr b :: rest) (MMKV.set now p c)) as Halias.
  { unfold MMKV.get. by rewrite MMKVFacts.keyToString_delimiter. }
  split; [exact Halias|].
  rewrite Halias.
  assert (key p ≠ []) as Hkey by done.
  rewrite (MMKVFacts.get_holds t _ _ _ (MMKVFacts.set_holds now p c Hkey Hd)).
  by eexists.
Qed.

Lemma X13_witness :
  let p := example_set [SStr "a"; SStr "b"] (VNum 1) in
  Json.representable (VNum 1) = true ∧
  MMKV.get 0 [SStr "a:b"] (@MMKV.set sample_constants 0 p example_flat)
  = MMKV.get 0 [SStr "a"; SStr "b"] (@MMKV.set sample_constants 0 p example_flat).
Proof.
  intros p. split; [reflexivity|].
  exact (proj1 (@X13_flat_keys_alias sample_constants 0 0 "a" "b" [] (VNum 1)
                  (Some 1000) (Some 1000) example_flat eq_refl)).
Defined.

(** X14: the methods keep the records readable: in a store constructed
    on an instance without records, and after any [set] of data that JSON
    represents, any [invalidate] and any [cleanUp] on a store whose
    records were all written by [set], every record is again one written
    by [set]. *)
Theorem X14_flat_methods_keep_records
    {C : Constants} (o : CacheOptions) (c : MMKV.CacheStoreMMKV) :
  MMKV.well_formed c →
  MMKV.well_formed (MMKV.create o ∅) ∧
  (∀ now p, Json.representable (data p) = true → MMKV.well_formed (MMKV.set now p c)) ∧
  (∀ path, MMKV.well_formed (MMKV.invalidate path c)) ∧
  (∀ now, MMKV.well_formed (MMKV.cleanUp now c).1).
Proof.
  intros Hwf. split; [apply MMKVFacts.create_well_formed|].
  split; [intros now p Hp; by apply MMKVFacts.set_well_formed|].
  split; [intros path; by apply MMKVFacts.invalidate_well_formed|].
  intros now. by apply MMKVFacts.cleanUp_well_formed.
Qed.

Lemma X14_witness :
  let c := @MMKV.set sample_constants 0 (example_set [SStr "a"; SStr "b"] (VNum 1)) example_flat in
  MMKV.well_formed c ∧
  MMKV.mmkvInstance c !! "a:b" = Some (MMKV.record_of
    {| e_data := VNum 1; e_timestamp := 0; e_staleTime := 1000; e_cacheTime := 1000 |}) ∧
  MMKV.well_formed (@MMKV.set sample_constants 5 (example_set [SStr "k"] (VStr "v")) c) ∧
  MMKV.well_formed (MMKV.invalidate [SStr "k"] c) ∧
  MMKV.well_formed (MMKV.cleanUp 7 c).1.
Proof.
  intros c.
  assert (MMKV.well_formed c) as Hwf.
  { apply MMKVFacts.set_well_formed; [reflexivity|apply MMKVFacts.create_well_formed]. }
  split; [exact Hwf|]. split; [reflexivity|].
  destruct (@X14_flat_methods_keep_records sample_constants (@defaultOptions sample_constants)
              c Hwf) as (_ & Hset & Hinvalidate & Hclean).
  split; [exact (Hset 5 (example_set [SStr "k"] (VStr "v")) eq_refl)|].
  split; [exact (Hinvalidate [SStr "k"])|exact (Hclean 7)].
Defined.

(** X15: one record that [JSON.parse] refuses makes [cleanUp] throw: the
    loop parses every record without a guard, so the sweep never completes
    while such a record is present. *)
Theorem X15_flat_cleanUp_stops_at_unparsable
    (now : Z) (c : MMKV.CacheStoreMMKV) (k s : string) :
  MMKV.mmkvInstance c !! k = Some s → s ≠ "" → Json.parse s = None →
  ∃ e, (MMKV.cleanUp now c).2 = Throw e.
Proof.
  intros Hk Hne Hparse. unfold MMKV.cleanUp.
  destruct (MMKVFacts.cleanUpKeys_unparsable now (MMKV.getAllKeys (MMKV.mmkvInstance c))
              (MMKV.mmkvInstance c) k s) as [e He]; [|done..|].
  - apply MMKVFacts.elem_of_getAllKeys. by eexists.
  - destruct (MMKV.cleanUpKeys now _ _) as [m r]. cbn [snd] in *. by eexists.
Qed.

Lemma X15_witness :
  let c := MMKV.with_instance example_flat {["k" := "{"]} in
  MMKV.mmkvInstance c !! "k" = Some "{" ∧ "{" ≠ "" ∧ Json.parse "{" = None ∧
  ∃ e, (MMKV.cleanUp 0 c).2 = Throw e.
Proof.
  intros c.
  assert ("{" ≠ "") as Hne by discriminate.
  split; [reflexivity|]. split; [exact Hne|]. split; [reflexivity|].
  exact (X15_flat_cleanUp_stops_at_unparsable 0 c "k" "{" eq_refl Hne eq_refl).
Defined.

(** ** The orchestrator *)

(** X16: the first read is outside the [try]: when [cache.get] throws, the
    call is rejected with that error and nothing else happens, with or
    without an error callback. On the persisted store this is what a record
    that does not parse does to every query of its key. *)
Theorem X16_query_read_failure_rejects
    {C : Constants} (p : QueryWithCacheParams) (now : Z) (c : MMKV.CacheStoreMMKV) (s : string) :
  MMKV.mmkvInstance c !! MMKV.keyToString (queryKey p) = Some s →
  s ≠ "" → Json.parse s = None →
  run p now c = (c, [CacheGet (queryKey p)], Throw SyntaxError).
Proof.
  intros Hk Hne Hparse. apply QueryFacts.run_get_throws.
  by apply MMKVFacts.get_unparsable with s.
Qed.

Lemma X16_witness :
  let c := MMKV.with_instance example_flat {["k" := "{"]} in
  let p := example_query (Ok (VNum 1)) true true in
  MMKV.mmkvInstance c !! MMKV.keyToString (queryKey p) = Some "{" ∧
  "{" ≠ "" ∧ Json.parse "{" = None ∧
  @run _ (@MMKV.CacheStore_MMKV sample_constants) p 0 c
  = (c, [CacheGet (queryKey p)], Throw SyntaxError).
Proof.
  intros c p.
  assert ("{" ≠ "") as Hne by discriminate.
  split; [reflexivity|]. split; [exact Hne|]. split; [reflexivity|].
  exact (@X16_query_read_failure_rejects sample_constants p 0 c "{" eq_refl Hne eq_refl).
Defined.



(** X18: [onData] is invoked at most twice in a call, the cached data
    first: once with truthy cached data, and once with the fetched result
    when a fetch was made, succeeded and its result is not deep-equal to
    what the first read returned. *)
Theorem X18_query_deliveries
    {S : Type} {ops : CacheStore S} (p : QueryWithCacheParams) (now : Z) (c : S)
    (ce : CacheEntryResult) :
  cache_get now (queryKey p) c = Ok ce →
  deliveries (run p now c).1.2 =
    (if truthy (r_data ce) then [r_data ce] else [])
    ++ (if truthy (r_data ce) && negb (r_stale ce) then []
        else
          match settles (queryFn p) with
          | Ok result => if isEqual result (r_data ce) then [] else [result]
          | Throw _ => []
          end).
Proof. apply QueryFacts.run_deliveries. Qed.

Lemma X18_witness :
  let c := (@InMemory.set sample_constants 0 (example_set [SStr "k"] (VStr "cached")) example_memory).1 in
  let p := example_query (Ok (VStr "new")) false false in
  @cache_get _ memory_ops 2000 (queryKey p) c = Ok {| r_data := VStr "cached"; r_stale := true |} ∧
  deliveries (@run _ memory_ops p 2000 c).1.2 = [VStr "cached"; VStr "new"].
Proof.
  intros c p. split; [reflexivity|].
  exact (@X18_query_deliveries _ memory_ops p 2000 c
           {| r_data := VStr "cached"; r_stale := true |} eq_refl).
Defined.

(** X19: the orchestrator and the in-memory store together, whatever the
    callbacks do: on a store built by the store's methods, for a non-empty
    key without the segment ["cacheEntry"], a call that reaches the fetch
    operation, whose fetch succeeds, and whose second [onData] (invoked
    when the result differs from the data read) returns, leaves the
    fetched result in the store: read at the instant of the write, [get]
    returns it, not stale (the resolved stale time being non-negative).
    The call then completes as the closing fetching-state callback does,
    normally when none is due. *)
Theorem X19_query_caches_result
    {C : Constants} (callbacks : Callbacks) (p : QueryWithCacheParams) (now : Z)
    (c : InMemory.CacheStoreInMemory) (result : value) :
  InMemory.wf c → queryKey p ≠ [] → InMemory.marker ∉ queryKey p →
  QueryFn ∈ (runWith callbacks p now c).1.2 →
  settles (queryFn p) = Ok result →
  (isEqual result (r_data (InMemory.get now (queryKey p) c)) = false →
   onData_completes callbacks result = Ok ()) →
  0 ≤ nullish (cacheExpirationTime p) (defaultStaleTime (InMemory.options c)) DEFAULT_STALE_TIME →
  InMemory.get (now + elapsed (queryFn p)) (queryKey p) (runWith callbacks p now c).1.1
  = {| r_data := result; r_stale := false |} ∧
  (runWith callbacks p now c).2
  = (if negb (truthy (r_data (InMemory.get now (queryKey p) c))) && onIsFetching p
     then onIsFetching_completes callbacks false
     else Ok ()).
Proof.
  intros Hwf Hkey Hmarker Hfetch Hok Hdata Hstale.
  assert (cache_get now (queryKey p) c = Ok (InMemory.get now (queryKey p) c)) as Hread
    by reflexivity.
  rewrite (QueryFacts.runWith_fetch_success callbacks p now c _ result Hread Hok Hfetch).
  cbn zeta.
  assert ((if isEqual result (r_data (InMemory.get now (queryKey p) c))
           then Ok () else onData_completes callbacks result) = Ok ()) as ->.
  { destruct (isEqual result _); [reflexivity|]. by apply Hdata. }
  change (cache_set ?t ?w c) with (InMemory.set t w c).
  pose proof (InMemoryFacts.set_ok (now + elapsed (queryFn p)) (written p result) c Hwf Hmarker)
    as [Hset _].
  pose proof (InMemoryFacts.slot_set_same (now + elapsed (queryFn p)) (written p result) c
                Hkey Hset) as Hslot.
  destruct (InMemory.set _ _ c) as [c' r]. cbn [fst snd] in *. subst r.
  cbn [fst snd key written] in *.
  split.
  - rewrite InMemoryFacts.get_slot, Hslot.
    cbn [e_data newEntry data]. f_equal. unfold InMemory.isStale.
    cbn [e_staleTime e_timestamp newEntry staleTime written].
    apply bool_decide_eq_false_2. lia.
  - destruct (negb _ && onIsFetching p); [|reflexivity].
    by destruct (onIsFetching_completes callbacks false) as [[]|e].
Qed.

Lemma X19_witness :
  let p := example_query (Ok (VStr "fetched")) true false in
  let callbacks := returning in
  InMemory.wf example_memory ∧ queryKey p ≠ [] ∧ (InMemory.marker ∉ queryKey p) ∧
  QueryFn ∈ (@runWith _ memory_ops callbacks p 0 example_memory).1.2 ∧
  onData_completes callbacks (VStr "fetched") = Ok () ∧
  InMemory.get 5 (queryKey p) (@runWith _ memory_ops callbacks p 0 example_memory).1.1
  = {| r_data := VStr "fetched"; r_stale := false |}.
Proof.
  intros p callbacks.
  assert (InMemory.wf example_memory) as Hwf by apply InMemoryFacts.create_wf.
  assert (queryKey p ≠ []) as Hkey by discriminate.
  assert (InMemory.marker ∉ queryKey p) as Hmarker by (unfold InMemory.marker; not_among).
  assert (QueryFn ∈ (@runWith _ memory_ops callbacks p 0 example_memory).1.2) as Hfetch.
  { vm_compute. apply elem_of_cons. right. apply elem_of_cons. right. left. }
  split; [exact Hwf|]. split; [exact Hkey|]. split; [exact Hmarker|].
  split; [exact Hfetch|]. split; [reflexivity|].
  assert (0 ≤ nullish (cacheExpirationTime p) (defaultStaleTime (InMemory.options example_memory))
                (@DEFAULT_STALE_TIME sample_constants)) as Hstale by discriminate.
  exact (proj1 (@X19_query_caches_result sample_constants callbacks p 0 example_memory
                  (VStr "fetched") Hwf Hkey Hmarker Hfetch eq_refl (λ _, eq_refl) Hstale)).
Defined.

(** ** The persisted store, for any data and any readable instance *)

(** X20: the persisted store, durations being integers: after a [set] at
    time [now], whatever the data, [get] of the same non-empty key at time
    [t] returns what [JSON.parse] reads back from the text
    [JSON.stringify] wrote for the data ([undefined] inside an array as
    [null], a property whose value is [undefined] dropped, the data
    [undefined] itself as [undefined], the property being absent from the
    record), with [stale] exactly when [t - now] exceeds the resolved
    stale time. *)
Theorem X20_flat_set_then_get_any_data
    {C : Constants} (now t : Z) (p : SetCacheParams) (c : MMKV.CacheStoreMMKV) :
  key p ≠ [] →
  MMKV.get t (key p) (MMKV.set now p c)
  = Ok {| r_data := match data p with
                    | VUndefined => VUndefined
                    | d => Json.reparsed d
                    end;
          r_stale := bool_decide
            (nullish (staleTime p) (defaultStaleTime (MMKV.options c)) DEFAULT_STALE_TIME
             < t - now) |}.
Proof.
  intros Hkey.
  assert (MMKV.stores (MMKV.set now p c) (key p) (newEntry now (MMKV.options c) p)) as Hstored.
  { unfold MMKV.stores, MMKV.set. destruct (key p) as [|part rest] eqn:Hk; [done|].
    cbn [MMKV.mmkvInstance MMKV.with_instance]. by rewrite lookup_insert_eq. }
  by rewrite (MMKVFacts.get_stores t (key p) _ _ Hstored).
Qed.

Lemma X20_witness :
  let p := {| key := [SStr "k"];
              data := VObj {["title" := VStr "t"; "draft" := VUndefined]};
              staleTime := Some 1000;
              cacheTime := None |} in
  key p ≠ [] ∧
  MMKV.get 1001 (key p) (@MMKV.set sample_constants 0 p example_flat)
  = Ok {| r_data := VObj {["title" := VStr "t"]}; r_stale := true |}.
Proof.
  intros p.
  assert (key p ≠ []) as Hkey by discriminate.
  split; [exact Hkey|].
  exact (@X20_flat_set_then_get_any_data sample_constants 0 1001 p example_flat Hkey).
Defined.




